(** * Morphoviewer mesh tools: a shallow embedding of [src/mesh_tools.js]

    The module [morphoviewer] of [mesh_tools.js] is embedded function by
    function.  Conventions of the embedding:

    - a JavaScript array is a [list]; reading [a[i]] is the lookup [a !! i],
      where [None] stands for the value [undefined] that JavaScript yields
      when [i] is not an index of [a];
    - an array created by [new Array(n)] is a list of [n] holes, a hole
      being [None] in a [list (option A)];
    - a call either completes with a value or throws; reading a property of
      [undefined] throws a [TypeError], the only exception these functions
      can raise, since they contain no [throw] of their own;
    - numbers are real numbers, so that the linear algebra and the
      transcendental functions have their mathematical meaning.  Rounding,
      NaN and the infinite results of a division by zero are outside this
      model: a theorem that depends on the value of a quotient assumes its
      divisor non-zero.  Where a property depends on the rounding, the
      overflow or the NaN of the numbers of the code, the function is
      embedded over binary64 floating-point numbers, where it computes:
      [getAabb], and a second time [surfaceOrientation] with
      [angleRangeClamp], and [centerOfVolume] with [centerPointCloud]. *)

From Stdlib Require Import PrimFloat.
From Stdlib Require SpecFloat FloatOps FloatAxioms Uint63.
From Stdlib Require Import Reals RList Lra Lia ZArith.
From stdpp Require Import base list.

(** ** JavaScript completions *)

Inductive exn : Type := TypeError.

Inductive result (A : Type) : Type :=
| Ok (a : A)
| Throw (e : exn).

Arguments Ok {A} a.
Arguments Throw {A} e.

#[global] Instance result_bind : MBind result := fun A B k r =>
  match r with
  | Ok a => k a
  | Throw e => Throw e
  end.

(** [prop o]: the object whose property is about to be read.  Reading a
    property of [undefined] throws. *)
Definition prop {A : Type} (o : option A) : result A :=
  match o with
  | Some a => Ok a
  | None => Throw TypeError
  end.

(** A [for] loop over the elements of an array, threading the mutated
    state [b]; the loop stops at the first exception. *)
Fixpoint for_each {A B : Type} (f : B -> A -> result B) (l : list A) (b : B)
  : result B :=
  match l with
  | [] => Ok b
  | a :: l' => b' ← f b a; for_each f l' b'
  end.

(** The indices [i, i + step, ...] below [stop] that a loop
    [for (; i < stop; i += step)] visits; [fuel] bounds their number. *)
Fixpoint range_step (fuel i stop step : nat) : list nat :=
  match fuel with
  | 0 => []
  | S fuel' =>
      if decide (i < stop) then i :: range_step fuel' (i + step) stop step
      else []
  end.

(** The same loop over an array of numbers.  A number read outside the
    array is [undefined] and turns the arithmetic into NaN, which is not a
    real number: such a run has no value in the model ([None]). *)
Fixpoint for_each_num {A B : Type} (f : B -> A -> option B) (l : list A) (b : B)
  : option B :=
  match l with
  | [] => Some b
  | a :: l' => b' ← f b a; for_each_num f l' b'
  end.

(** [a[i] = x] on an array with holes: an index beyond the end extends the
    array with holes up to it. *)
Definition array_set {A : Type} (i : nat) (x : A) (a : list (option A))
  : list (option A) :=
  if decide (i < length a) then <[i := Some x]> a
  else a ++ replicate (i - length a) None ++ [Some x].

(** ** Data model *)

(** A point or a vector: a JavaScript array of three numbers. *)
Record Vec3 : Type := mkVec3 { c0 : R; c1 : R; c2 : R }.

(** A triangle: a JavaScript array of three indices. *)
Record Tri : Type := mkTri { i0 : nat; i1 : nat; i2 : nat }.

Definition tri_in_range (n : nat) (t : Tri) : Prop :=
  i0 t < n /\ i1 t < n /\ i2 t < n.

#[global] Instance tri_in_range_dec n t : Decision (tri_in_range n t).
Proof. unfold tri_in_range. apply _. Defined.

(** ** unwrapVectorArray, unwrapArray *)

Definition unwrapVectorArray (v : list Vec3) (inds : list Tri)
  : result (list R) :=
  for_each (fun verts t =>
    p ← prop (v !! i0 t);
    let verts := verts ++ [c0 p; c1 p; c2 p] in
    p ← prop (v !! i1 t);
    let verts := verts ++ [c0 p; c1 p; c2 p] in
    p ← prop (v !! i2 t);
    let verts := verts ++ [c0 p; c1 p; c2 p] in
    Ok verts)
  inds [].

(** The values pushed are whatever the reads yield, [undefined] included:
    no property of a read value is taken, so nothing throws. *)
Definition unwrapArray {A : Type} (v : list A) (inds : list Tri)
  : result (list (option A)) :=
  for_each (fun values t =>
    Ok (values ++ [v !! i0 t; v !! i1 t; v !! i2 t]))
  inds [].

(** ** VectorMath: the external vector library *)

Module vec3.

(** Modelled from the spec: [vec3.fromValues] of the external VectorMath
    library builds the vector of its three arguments. *)
Definition fromValues (x y z : R) : Vec3 := mkVec3 x y z.

(** Modelled from the spec: [vec3.add] of the external VectorMath library,
    per standard linear algebra. *)
Definition add (a b : Vec3) : Vec3 :=
  mkVec3 (c0 a + c0 b) (c1 a + c1 b) (c2 a + c2 b).

(** Modelled from the spec: [vec3.dot] of the external VectorMath library,
    per standard linear algebra. *)
Definition dot (a b : Vec3) : R :=
  c0 a * c0 b + c1 a * c1 b + c2 a * c2 b.

(** Modelled from the spec: [vec3.cross] of the external VectorMath
    library, per standard linear algebra (right-hand rule). *)
Definition cross (a b : Vec3) : Vec3 :=
  mkVec3 (c1 a * c2 b - c2 a * c1 b)
         (c2 a * c0 b - c0 a * c2 b)
         (c0 a * c1 b - c1 a * c0 b).

(** Modelled from the spec: [vec3.normalize] of the external VectorMath
    library divides a vector by its Euclidean length.  The spec leaves the
    result on the zero vector undefined; no theorem below depends on it. *)
Definition normalize (a : Vec3) : Vec3 :=
  let len := sqrt (dot a a) in
  mkVec3 (c0 a / len) (c1 a / len) (c2 a / len).

End vec3.

Record Vec2 : Type := mkVec2 { v0 : R; v1 : R }.

Module vec2.

(** Modelled from the spec: [vec2.fromValues] of the external VectorMath
    library builds the vector of its two arguments. *)
Definition fromValues (x y : R) : Vec2 := mkVec2 x y.

(** Modelled from the spec: [vec2.normalize] of the external VectorMath
    library divides a vector by its Euclidean length.  The spec leaves the
    result on the zero vector undefined; no theorem below depends on it. *)
Definition normalize (a : Vec2) : Vec2 :=
  let len := sqrt (v0 a * v0 a + v1 a * v1 a) in
  mkVec2 (v0 a / len) (v1 a / len).

End vec2.

(** A 2x2 matrix: a JavaScript array of four numbers. *)
Record Mat2 : Type := mkMat2 { m0 : R; m1 : R; m2 : R; m3 : R }.

Module mat2.

(** Modelled from the spec: the determinant behind [mat2.invert]. *)
Definition determinant (a : Mat2) : R := m0 a * m3 a - m2 a * m1 a.

(** Modelled from the spec: [mat2.invert] of the external VectorMath
    library, the inverse per standard linear algebra.  A singular matrix
    has no inverse: the value taken here on one is not the library's, and
    the theorems about the value of an energy assume a determinant that is
    not zero. *)
Definition invert (a : Mat2) : Mat2 :=
  let det := determinant a in
  mkMat2 (m3 a / det) (- m1 a / det) (- m2 a / det) (m0 a / det).

(** Modelled from the spec: [mat2.multiply] of the external VectorMath
    library, the matrix product per standard linear algebra, on matrices
    stored column by column. *)
Definition multiply (a b : Mat2) : Mat2 :=
  mkMat2 (m0 a * m0 b + m2 a * m1 b) (m1 a * m0 b + m3 a * m1 b)
         (m0 a * m2 b + m2 a * m3 b) (m1 a * m2 b + m3 a * m3 b).

End mat2.

(** ** The functions of [Math] on real numbers *)

Module Math.

Definition PI : R := Rtrigo1.PI.

Definition exp (x : R) : R := Rtrigo_def.exp x.

Definition floor (x : R) : R := IZR (Zfloor x).

(** [Math.atan2] on real numbers: the angle of the point [(x, y)], in the
    interval from [-PI] (excluded) to [PI] (included); [atan2 0 0] is [0]. *)
Definition atan2 (y x : R) : R :=
  if Rlt_dec 0 x then atan (y / x)
  else if Rlt_dec x 0 then
    if Rle_dec 0 y then atan (y / x) + PI else atan (y / x) - PI
  else
    if Rlt_dec 0 y then PI / 2
    else if Rlt_dec y 0 then - (PI / 2)
    else 0.

End Math.

(** ** centerOfVolume, centerPointCloud *)

(** The two functions on the values of the points, in exact arithmetic:
    what the theorems about lengths and indices in range need.  On the
    empty array the JavaScript quotient is NaN.  The arithmetic of the code
    and the sharing of point objects are the subject of the module [cloud]
    below. *)
Definition centerOfVolume (points : list Vec3) : Vec3 :=
  let '(covX, covY, covZ) :=
    fold_left (fun '(covX, covY, covZ) p =>
                 (covX + c0 p, covY + c1 p, covZ + c2 p)%R)
              points (0, 0, 0)%R in
  let n := INR (length points) in
  mkVec3 (covX / n) (covY / n) (covZ / n).

(** The function mutates the points of its argument and returns nothing:
    its effect is the new content of the array, here for an array of
    distinct point objects. *)
Definition centerPointCloud (points : list Vec3) : list Vec3 :=
  let cov := centerOfVolume points in
  map (fun p => mkVec3 (c0 p - c0 cov) (c1 p - c1 cov) (c2 p - c2 cov)) points.

(** ** getAabb, over binary64 numbers *)

Module aabb.

Import PrimFloat.

Record FPoint : Type := mkFPoint { f0 : float; f1 : float; f2 : float }.

Record xyz : Type := mkXyz { x : float; y : float; z : float }.

Record t : Type := mk {
  min : xyz;
  max : xyz;
  center : xyz;
  length : float
}.

(** The six running extrema of the scan. *)
Record extrema : Type := mkExtrema {
  xmin : float; xmax : float;
  ymin : float; ymax : float;
  zmin : float; zmax : float
}.

Definition scan (e : extrema) (p : FPoint) : extrema :=
  let xmin := if ltb (f0 p) (xmin e) then f0 p else xmin e in
  let xmax := if ltb (xmax e) (f0 p) then f0 p else xmax e in
  let ymin := if ltb (f1 p) (ymin e) then f1 p else ymin e in
  let ymax := if ltb (ymax e) (f1 p) then f1 p else ymax e in
  let zmin := if ltb (f2 p) (zmin e) then f2 p else zmin e in
  let zmax := if ltb (zmax e) (f2 p) then f2 p else zmax e in
  mkExtrema xmin xmax ymin ymax zmin zmax.

Definition getAabb (verts : list FPoint) : t :=
  let e := fold_left scan verts
             (mkExtrema infinity neg_infinity
                        infinity neg_infinity
                        infinity neg_infinity) in
  let sqrDist := mul (sub (xmax e) (xmin e)) (sub (xmax e) (xmin e)) in
  let sqrDist := add sqrDist (mul (sub (ymax e) (ymin e)) (sub (ymax e) (ymin e))) in
  let sqrDist := add sqrDist (mul (sub (zmax e) (zmin e)) (sub (zmax e) (zmin e))) in
  mk (mkXyz (xmin e) (ymin e) (zmin e))
     (mkXyz (xmax e) (ymax e) (zmax e))
     (mkXyz (add (xmin e) (div (xmax e) 2))
            (add (ymin e) (div (ymax e) 2))
            (add (zmin e) (div (zmax e) 2)))
     (sqrt sqrDist).

(** The claimed centre of the box on one axis: the midpoint of the
    extrema. *)
Definition midpoint (lo hi : float) : float := div (add lo hi) 2.

End aabb.

(** ** faceNormals, faceVectors *)

Definition faceNormals (verts : list Vec3) (ind : list Tri)
  : result (list (option Vec3)) :=
  for_each (fun norms t =>
    p1 ← prop (verts !! i1 t);
    p0 ← prop (verts !! i0 t);
    let a := vec3.fromValues (c0 p1 - c0 p0) (c1 p1 - c1 p0) (c2 p1 - c2 p0) in
    p2 ← prop (verts !! i2 t);
    let b := vec3.fromValues (c0 p2 - c0 p0) (c1 p2 - c1 p0) (c2 p2 - c2 p0) in
    let n := vec3.cross a b in
    let n := vec3.normalize n in
    let norms := array_set (i0 t) (mkVec3 (c0 n) (c1 n) (c2 n)) norms in
    let norms := array_set (i1 t) (mkVec3 (c0 n) (c1 n) (c2 n)) norms in
    let norms := array_set (i2 t) (mkVec3 (c0 n) (c1 n) (c2 n)) norms in
    Ok norms)
  ind (replicate (length verts) None).

Definition faceVectors (verts : list Vec3) (ind : list Tri)
  : result (list (option Vec3)) :=
  for_each (fun norms t =>
    p1 ← prop (verts !! i1 t);
    p0 ← prop (verts !! i0 t);
    let a := vec3.fromValues (c0 p1 - c0 p0) (c1 p1 - c1 p0) (c2 p1 - c2 p0) in
    p2 ← prop (verts !! i2 t);
    let b := vec3.fromValues (c0 p2 - c0 p0) (c1 p2 - c1 p0) (c2 p2 - c2 p0) in
    let n := vec3.cross a b in
    let norms := array_set (i0 t) (mkVec3 (c0 n) (c1 n) (c2 n)) norms in
    let norms := array_set (i1 t) (mkVec3 (c0 n) (c1 n) (c2 n)) norms in
    let norms := array_set (i2 t) (mkVec3 (c0 n) (c1 n) (c2 n)) norms in
    Ok norms)
  ind (replicate (length verts) None).

(** ** vertexNormals *)

(** The first two loops: one empty list per vertex, then two pushes per
    triangle slot. *)
Definition buildAdjacency (n : nat) (ind : list Tri) : result (list (list nat)) :=
  for_each (fun adjacency t =>
    l ← prop (adjacency !! i0 t);
    let adjacency := <[i0 t := l ++ [i1 t; i2 t]]> adjacency in
    l ← prop (adjacency !! i1 t);
    let adjacency := <[i1 t := l ++ [i0 t; i2 t]]> adjacency in
    l ← prop (adjacency !! i2 t);
    let adjacency := <[i2 t := l ++ [i0 t; i1 t]]> adjacency in
    Ok adjacency)
  ind (replicate n []).

Definition vertexNormals (verts : list Vec3) (ind : list Tri)
  : result (list (option Vec3)) :=
  adjacency ← buildAdjacency (length verts) ind;
  faceVecs ← faceVectors verts ind;
  for_each (fun norms i =>
    adj_i ← prop (adjacency !! i);
    n ← for_each (fun n j =>
           f ← prop (mjoin (faceVecs !! j));
           Ok (vec3.add n (vec3.fromValues (c0 f) (c1 f) (c2 f))))
         adj_i (vec3.fromValues 0 0 0);
    let n := vec3.normalize n in
    Ok (array_set i (mkVec3 (c0 n) (c1 n) (c2 n)) norms))
  (seq 0 (length verts)) (replicate (length verts) None).

(** ** surfaceVariation, clampTrace *)

(** A running extremum: a number, or the infinity it starts from. *)
Inductive ext : Type :=
| NEGATIVE_INFINITY
| Fin (r : R)
| POSITIVE_INFINITY.

(** [x > e] *)
Definition gt_ext (x : R) (e : ext) : bool :=
  match e with
  | NEGATIVE_INFINITY => true
  | Fin r => if Rgt_dec x r then true else false
  | POSITIVE_INFINITY => false
  end.

(** [x < e] *)
Definition lt_ext (x : R) (e : ext) : bool :=
  match e with
  | NEGATIVE_INFINITY => false
  | Fin r => if Rlt_dec x r then true else false
  | POSITIVE_INFINITY => true
  end.

(** [x / e]: a number divided by an infinity is zero.  With [e] zero the
    JavaScript quotient is NaN or an infinity, which is no real number: the
    value taken here is not the code's, and the theorems about the value of
    a scalar assume a maximum that is not zero. *)
Definition div_ext (x : R) (e : ext) : R :=
  match e with
  | Fin r => x / r
  | _ => 0
  end.

Definition clampTrace (trace : R) : R :=
  if Rgt_dec trace 1000 then 1000 else trace.

Record variation_state : Type := mkVariation {
  largest : ext;
  smallest : ext;
  scalars : list R
}.

Definition surfaceVariation (verts vNorms : list R) : option (list R) :=
  st ← for_each_num (fun st i =>
    a0 ← verts !! i; a1 ← verts !! (i + 1)%nat; a2 ← verts !! (i + 2)%nat;
    a3 ← verts !! (i + 3)%nat; a4 ← verts !! (i + 4)%nat; a5 ← verts !! (i + 5)%nat;
    a6 ← verts !! (i + 6)%nat; a7 ← verts !! (i + 7)%nat; a8 ← verts !! (i + 8)%nat;
    let u := vec3.fromValues (a3 - a0) (a4 - a1) (a5 - a2) in
    let v := vec3.fromValues (a6 - a0) (a7 - a1) (a8 - a2) in
    let G := mkMat2 (vec3.dot u u) (vec3.dot u v) (vec3.dot u v) (vec3.dot v v) in
    b0 ← vNorms !! i; b1 ← vNorms !! (i + 1)%nat; b2 ← vNorms !! (i + 2)%nat;
    b3 ← vNorms !! (i + 3)%nat; b4 ← vNorms !! (i + 4)%nat; b5 ← vNorms !! (i + 5)%nat;
    b6 ← vNorms !! (i + 6)%nat; b7 ← vNorms !! (i + 7)%nat; b8 ← vNorms !! (i + 8)%nat;
    let nu := vec3.fromValues (b3 - b0) (b4 - b1) (b5 - b2) in
    let nv := vec3.fromValues (b6 - b0) (b7 - b1) (b8 - b2) in
    let H := mkMat2 (vec3.dot nu nu) (vec3.dot nu nv) (vec3.dot nu nv) (vec3.dot nv nv) in
    let G := mat2.invert G in
    let res := mat2.multiply G H in
    let trace := (m0 res + m3 res)%R in
    let trace := clampTrace trace in
    let scalars := scalars st ++ [trace; trace; trace] in
    if gt_ext trace (largest st) then
      Some (mkVariation (Fin trace) (smallest st) scalars)
    else if lt_ext trace (smallest st) then
      Some (mkVariation (largest st) (Fin trace) scalars)
    else
      Some (mkVariation (largest st) (smallest st) scalars))
  (range_step (length verts) 0 (length verts) 9)
  (mkVariation NEGATIVE_INFINITY POSITIVE_INFINITY []);
  Some (map (fun s =>
               let s := div_ext s (largest st) in
               (1 - Math.exp (2.99572315 - 15 * s) / 20)%R)
            (scalars st)).

(** ** surfaceOrientation, angleRangeClamp *)

Definition angleRangeClamp (angle : R) : R :=
  if Rgt_dec angle (Math.PI * 2) then angle - Math.PI * 2
  else if Rlt_dec angle 0 then angle + Math.PI * 2
  else angle.

Definition surfaceOrientation (norms : list R) : option (list R) :=
  let n := 8%R in
  for_each_num (fun regions i =>
    nx ← norms !! i;
    ny ← norms !! (i + 1)%nat;
    let or := vec2.normalize (vec2.fromValues nx ny) in
    let theta := angleRangeClamp (Math.atan2 (v1 or) (v0 or)) in
    let region := Math.floor (theta / (2 * Math.PI / n)) in
    let region := (region / (n - 1))%R in
    Some (regions ++ [region]))
  (range_step (length norms) 0 (length norms) 3) [].

(** ** triangulate *)

(** An array of three indices as [triangulate] builds it: each entry is
    what the read of the flat index array yields, [undefined] included. *)
Abbreviation IndexTriple := (option nat * option nat * option nat)%type.

Section Triangulate.

(** [Delaunay.triangulate], the external triangulation: from the points
    to a flat array of indices. *)
Variable Delaunay_triangulate : list Vec3 -> list nat.

Definition triangulate (verts : list Vec3) : list IndexTriple :=
  let unwrapped_tris := Delaunay_triangulate verts in
  fold_left (fun tris i =>
               tris ++ [(unwrapped_tris !! i,
                         unwrapped_tris !! (i + 1)%nat,
                         unwrapped_tris !! (i + 2)%nat)])
            (range_step (length unwrapped_tris) 0 (length unwrapped_tris) 3)
            [].

End Triangulate.

(** ** surfaceOrientation and angleRangeClamp, over binary64 numbers

    The two functions once more, with the numbers the code runs on.
    [Math.atan2] belongs to the runtime, which approximates it as it sees
    fit: it is a parameter of the embedding. *)

Module binary64.

Import PrimFloat.
Local Open Scope float_scope.

(** [Math.PI]: the binary64 number nearest to the constant. *)
Definition PI : float := 0x1.921fb54442d18p+1%float.

(** The non-negative integer [k], below 2^53, as a binary64 number. *)
Definition of_Z (k : Z) : float := of_uint63 (Uint63.of_Z k).

(** [Math.floor]: the largest integer that is not above [x]; an infinity,
    a zero and NaN are returned as they are.  [x] is
    [(-1)^s * m * 2^e]: with [0 <= e] it is an integer already. *)
Definition floor (x : float) : float :=
  match FloatOps.Prim2SF x with
  | SpecFloat.S754_finite s m e =>
      if (0 <=? e)%Z then x
      else
        let q := Z.shiftr (Z.pos m) (- e) in
        let whole := (Z.shiftl q (- e) =? Z.pos m)%Z in
        if s then - of_Z (if whole then q else q + 1) else of_Z q
  | _ => x
  end.

(** Modelled from the spec: [vec2.normalize] of the external VectorMath
    library divides a vector by its Euclidean length. *)
Definition normalize (a : float * float) : float * float :=
  let len := sqrt (fst a * fst a + snd a * snd a) in
  (fst a / len, snd a / len).

Definition angleRangeClamp (angle : float) : float :=
  if PI * 2 <? angle then angle - PI * 2
  else if angle <? 0 then angle + PI * 2
  else angle.

Section Runtime.

Variable atan2 : float -> float -> float.

(** A number read past the end of the array is [undefined], which the
    arithmetic turns into NaN. *)
Definition surfaceOrientation (norms : list float) : list float :=
  let n := 8 in
  fold_left (fun regions i =>
               let or := normalize (default nan (norms !! i),
                                    default nan (norms !! (i + 1)%nat)) in
               let theta := angleRangeClamp (atan2 (snd or) (fst or)) in
               let region := floor (theta / (2 * PI / n)) in
               let region := region / (n - 1) in
               regions ++ [region])
            (range_step (length norms) 0 (length norms) 3) [].

End Runtime.

End binary64.

(** ** centerOfVolume and centerPointCloud, on point objects

    [centerPointCloud] writes into the point objects its argument refers
    to.  Here the objects live in a store, a point set is the array of the
    addresses of its points, and an address that is not in the store
    stands for an entry that is not an object.  The arithmetic is a
    parameter: binary64 is the one of the code, the real numbers the exact
    one. *)

Module cloud.

Class Arith (num : Type) : Type := {
  zero : num;
  add : num -> num -> num;
  sub : num -> num -> num;
  (** the quotient by [points.length] *)
  div_length : num -> nat -> num
}.

Record Point (num : Type) : Type := mkPoint { p0 : num; p1 : num; p2 : num }.

Arguments mkPoint {num} p0 p1 p2.
Arguments p0 {num} p.
Arguments p1 {num} p.
Arguments p2 {num} p.

#[global] Instance binary64_arith : Arith float := {|
  zero := 0%float;
  add := PrimFloat.add;
  sub := PrimFloat.sub;
  div_length x n := (x / binary64.of_Z (Z.of_nat n))%float
|}.


Section Centering.

Context {num : Type} {arith : Arith num}.

Definition centerOfVolume (store : list (Point num)) (points : list nat)
  : result (Point num) :=
  cov ← for_each (fun cov a =>
                    let '(covX, covY, covZ) := cov in
                    p ← prop (store !! a);
                    Ok (add covX (p0 p), add covY (p1 p), add covZ (p2 p)))
                 points (zero, zero, zero);
  let '(covX, covY, covZ) := cov in
  Ok (mkPoint (div_length covX (length points))
              (div_length covY (length points))
              (div_length covZ (length points))).

(** The three components of the point at [points[i]] are overwritten; the
    result is the store after the loop. *)
Definition centerPointCloud (store : list (Point num)) (points : list nat)
  : result (list (Point num)) :=
  cov ← centerOfVolume store points;
  for_each (fun store a =>
              p ← prop (store !! a);
              Ok (<[a := mkPoint (sub (p0 p) (p0 cov)) (sub (p1 p) (p1 cov))
                                 (sub (p2 p) (p2 cov))]> store))
           points store.

End Centering.

End cloud.

(** * The viewer: a shallow embedding of [src/morphoviewer.js]

    Of the viewer, the mouse input and the loading of the normals stored in
    a PLY file are embedded.  The camera is an object of another file: what
    is recorded of it is the sequence of the calls made to it.  Page
    coordinates are numbers, hence reals as above. *)

Module viewer.

(** [var mouse = { prevX: 0, prevY: 0, dx: 0, dy: 0 }] *)
Record Mouse : Type := mkMouse { prevX : R; prevY : R; dx : R; dy : R }.

(** The calls the input handlers make to the camera. *)
Inductive camera_call : Type :=
| dolly (d : R)
| orbit (a b : R)
| pan (a b : R).

(** The function assigned to [canvas.onmousemove]: none before the first
    assignment, then one of the two closures of [onMouseDown] or the one
    of [onMouseUp]. *)
Inductive move_handler : Type := unassigned | orbiting | panning | released.

Record state : Type := mkState {
  mouse : Mouse;
  onmousemove : move_handler;
  camera : list camera_call
}.

Definition initial : state := mkState (mkMouse 0 0 0 0) unassigned [].

(** The properties the handlers read of a mouse event; [which] and
    [button] are 0 where the browser leaves them unset, the two being
    equally falsy and equally matched by no [case]. *)
Record MouseEvent : Type := mkMouseEvent {
  which : N;
  button : N;
  pageX : R;
  pageY : R
}.

Record WheelEvent : Type := mkWheelEvent { detail : R; wheelDelta : R }.

Definition onMouseWheel (event : WheelEvent) (s : state) : state :=
  let delta :=
    if Req_dec_T (detail event) 0 then wheelDelta event
    else (detail event * (-120))%R in
  mkState (mouse s) (onmousemove s) (camera s ++ [dolly (delta * -0.0025)%R]).

(** The value of [event.which] after the first statement of
    [onMouseDown], which derives it from the [button] mask of old
    browsers. *)
Definition pressed (event : MouseEvent) : N :=
  if (which event =? 0)%N && negb (button event =? 0)%N then
    if negb (N.land (button event) 1 =? 0)%N then 1%N
    else if negb (N.land (button event) 4 =? 0)%N then 2%N
    else if negb (N.land (button event) 2 =? 0)%N then 3%N
    else which event
  else which event.

Definition onMouseDown (event : MouseEvent) (s : state) : state :=
  let which := pressed event in
  let mouse := mkMouse (pageX event) (pageY event) (dx (mouse s)) (dy (mouse s)) in
  match which with
  | 1%N => mkState mouse orbiting (camera s)
  | 3%N => mkState mouse panning (camera s)
  | _ => mkState mouse (onmousemove s) (camera s)
  end.

Definition onMouseUp (event : MouseEvent) (s : state) : state :=
  mkState (mouse s) released (camera s).

Definition onMouseMove (event : MouseEvent) (m : Mouse) : Mouse :=
  let x := pageX event in
  let y := pageY event in
  mkMouse x y (x - prevX m)%R (y - prevY m)%R.

(** The call of whatever [canvas.onmousemove] holds. *)
Definition call_onmousemove (e : MouseEvent) (s : state) : state :=
  match onmousemove s with
  | unassigned => s
  | orbiting =>
      let m := onMouseMove e (mouse s) in
      mkState m orbiting (camera s ++ [orbit (dx m * 0.004)%R (dy m * 0.004)%R])
  | panning =>
      let m := onMouseMove e (mouse s) in
      mkState m panning (camera s ++ [pan (dx m * -0.01)%R (dy m * 0.01)%R])
  | released => s
  end.

(** The events of the canvas for which [initialize] installs a handler. *)
Inductive event : Type :=
| mousedown (e : MouseEvent)
| mouseup (e : MouseEvent)
| mousemove (e : MouseEvent)
| mousewheel (e : WheelEvent).

Definition dispatch (s : state) (ev : event) : state :=
  match ev with
  | mousedown e => onMouseDown e s
  | mouseup e => onMouseUp e s
  | mousemove e => call_onmousemove e s
  | mousewheel e => onMouseWheel e s
  end.

Definition run (evs : list event) (s : state) : state :=
  fold_left dispatch evs s.

(** An array literal of three reads, each of which may yield
    [undefined]. *)
Abbreviation NumTriple := (option R * option R * option R)%type.

(** The normals of the PLY branch of [viewData] when the file stores
    them: the loop runs to [length], which at that point holds
    [vertex_indices.length]. *)
Definition stored_normals (nx : list R) (ny nz : option (list R))
    (vertex_indices : list Tri) : result (list NumTriple) :=
  let length := length vertex_indices in
  for_each (fun norms i =>
              ny ← prop ny;
              nz ← prop nz;
              Ok (norms ++ [(nx !! i, ny !! i, nz !! i)]))
           (seq 0 length) [].

(** A vector of numbers as the array of its three components. *)
Definition triple (v : Vec3) : NumTriple := (Some (c0 v), Some (c1 v), Some (c2 v)).

(** [tools.unwrapVectorArray] as [viewData] calls it on the normals, whose
    entries need not be vectors of numbers: an entry is a hole or
    [undefined] ([None]) or an array of three components.  The loop is the
    one of [unwrapVectorArray] above; it pushes what the reads yield. *)
Definition unwrapVectorArray_any (v : list (option NumTriple)) (inds : list Tri)
  : result (list (option R)) :=
  for_each (fun verts t =>
    p ← prop (mjoin (v !! i0 t));
    let verts := verts ++ [fst (fst p); snd (fst p); snd p] in
    p ← prop (mjoin (v !! i1 t));
    let verts := verts ++ [fst (fst p); snd (fst p); snd p] in
    p ← prop (mjoin (v !! i2 t));
    let verts := verts ++ [fst (fst p); snd (fst p); snd p] in
    Ok verts)
  inds [].

(** The array as an array of numbers, when none of its entries is
    [undefined]. *)
Definition numbers (a : list (option R)) : option (list R) :=
  mapM (fun x : option R => x) a.

(** The four arrays handed to [mesh.meshFromArray]: the unwrapped points,
    the unwrapped normals, the curvature and the orientation. *)
Abbreviation MeshArrays :=
  (list R * list (option R) * option (list R) * option (list R))%type.

(** The end of the three callbacks of [viewData], from the centering on.
    The arithmetic of the two scalar fields on an [undefined] normal
    component is NaN, outside the model of numbers: the field is then
    [None]. *)
Definition mesh_arrays (verts : list Vec3) (tris : list Tri)
    (norms : list (option NumTriple)) : result MeshArrays :=
  let verts := centerPointCloud verts in
  verts_unwrapped ← unwrapVectorArray verts tris;
  norms_unwrapped ← unwrapVectorArray_any norms tris;
  let curvature :=
    vNorms ← numbers norms_unwrapped; surfaceVariation verts_unwrapped vNorms in
  let orientation :=
    vNorms ← numbers norms_unwrapped; surfaceOrientation vNorms in
  Ok (verts_unwrapped, norms_unwrapped, curvature, orientation).

(** The callback of the OBJ branch: [v], [f] and [vn] are the entries of
    the model the loader passes, [vn] being [None] when the model has no
    such entry. *)
Definition obj_arrays (v : list Vec3) (f : list Tri) (vn : option (list Vec3))
  : result MeshArrays :=
  let verts := v in
  let tris := f in
  norms ← match vn return result (list (option NumTriple)) with
          | Some vn => Ok (map (fun n => Some (triple n)) vn)
          | None =>
              norms ← vertexNormals verts tris;
              Ok (map (fun n : option Vec3 => fmap triple n) norms)
          end;
  mesh_arrays verts tris norms.

(** The callback of the PLY branch, from the copy of the faces on.  The
    points are taken as built (the x, y and z properties of the vertex
    element, of equal lengths); [nx] is [None] when the vertex element has
    no such property. *)
Definition ply_arrays (verts : list Vec3) (vertex_indices : list Tri)
    (nx ny nz : option (list R)) : result MeshArrays :=
  let tris := vertex_indices in
  norms ← match nx return result (list (option NumTriple)) with
          | Some nx =>
              norms ← stored_normals nx ny nz vertex_indices;
              Ok (map Some norms)
          | None =>
              norms ← vertexNormals verts tris;
              Ok (map (fun n : option Vec3 => fmap triple n) norms)
          end;
  mesh_arrays verts tris norms.

End viewer.

(** * Reference definitions

    The properties below compare the functions above with these
    descriptions of what they are meant to compute. *)

(** The three coordinates of a point, in index order. *)
Definition coords (p : Vec3) : list R := [c0 p; c1 p; c2 p].

(** The value of a per-vertex array at an index known to be in range. *)
Definition at_index {A : Type} (d : A) (v : list A) (i : nat) : A := nth i v d.

(** The unwrapped array: for each triangle in order, the values at its
    three indices. *)
Definition unwrapped {A : Type} (d : A) (v : list A) (inds : list Tri) : list A :=
  flat_map (fun t => [at_index d v (i0 t); at_index d v (i1 t); at_index d v (i2 t)]) inds.

Definition all_in_range (n : nat) (inds : list Tri) : Prop :=
  Forall (tri_in_range n) inds.

Definition origin : Vec3 := mkVec3 0 0 0.

(** The difference of two points, [p - q]. *)
Definition vec3_sub (p q : Vec3) : Vec3 :=
  mkVec3 (c0 p - c0 q) (c1 p - c1 q) (c2 p - c2 q).

(** The raw face vector of the triangle [(a,b,c)]:
    [(P[b] - P[a]) x (P[c] - P[a])]. *)
Definition face_cross (verts : list Vec3) (t : Tri) : Vec3 :=
  let pa := at_index origin verts (i0 t) in
  let pb := at_index origin verts (i1 t) in
  let pc := at_index origin verts (i2 t) in
  vec3.cross (vec3_sub pb pa) (vec3_sub pc pa).

(** The face normal of a triangle: its raw face vector, normalized. *)
Definition face_normal (verts : list Vec3) (t : Tri) : Vec3 :=
  vec3.normalize (face_cross verts t).

(** Vertex [v] is one of the three indices of triangle [t]. *)
Definition incident (v : nat) (t : Tri) : Prop :=
  v = i0 t \/ v = i1 t \/ v = i2 t.

#[global] Instance incident_dec v t : Decision (incident v t).
Proof. unfold incident. apply _. Defined.

(** The triangle processed last, in iteration order, among those that
    reference vertex [v]. *)
Definition last_incident (ind : list Tri) (v : nat) : option Tri :=
  last (filter (incident v) ind).

(** A per-vertex array of [n] slots in which the slot of each vertex holds
    the value [f] takes on the last triangle that references the vertex,
    and is a hole when no triangle does. *)
Definition face_array (f : Tri -> Vec3) (n : nat) (ind : list Tri)
  : list (option Vec3) :=
  map (fun v => f <$> last_incident ind v) (seq 0 n).

(** One iteration of the loops of [faceNormals] and [faceVectors], which
    differ only in what they do to the cross product. *)
Definition face_step (finish : Vec3 -> Vec3) (verts : list Vec3)
    (norms : list (option Vec3)) (t : Tri) : result (list (option Vec3)) :=
  p1 ← prop (verts !! i1 t);
  p0 ← prop (verts !! i0 t);
  let a := vec3.fromValues (c0 p1 - c0 p0) (c1 p1 - c1 p0) (c2 p1 - c2 p0) in
  p2 ← prop (verts !! i2 t);
  let b := vec3.fromValues (c0 p2 - c0 p0) (c1 p2 - c1 p0) (c2 p2 - c2 p0) in
  let n := finish (vec3.cross a b) in
  let norms := array_set (i0 t) (mkVec3 (c0 n) (c1 n) (c2 n)) norms in
  let norms := array_set (i1 t) (mkVec3 (c0 n) (c1 n) (c2 n)) norms in
  let norms := array_set (i2 t) (mkVec3 (c0 n) (c1 n) (c2 n)) norms in
  Ok norms.

(** Some index of the triangle is not an index of an array of [n] slots. *)
Definition out_of_range (n : nat) (t : Tri) : Prop :=
  n <= i0 t \/ n <= i1 t \/ n <= i2 t.

(** The adjacency entries vertex [v] receives from triangle [t]: the two
    other indices of the triangle, once for each slot of [t] that is [v]. *)
Definition neighbours (v : nat) (t : Tri) : list nat :=
  (if decide (v = i0 t) then [i1 t; i2 t] else [])
  ++ (if decide (v = i1 t) then [i0 t; i2 t] else [])
  ++ (if decide (v = i2 t) then [i0 t; i1 t] else []).

(** The adjacency list: per vertex, its entries from every triangle, in
    iteration order. *)
Definition adjacency_of (n : nat) (ind : list Tri) : list (list nat) :=
  map (fun v => flat_map (neighbours v) ind) (seq 0 n).

(** The number of slots of [t] that hold vertex [v]. *)
Definition slots_of (v : nat) (t : Tri) : nat :=
  (if decide (v = i0 t) then 1 else 0)
  + (if decide (v = i1 t) then 1 else 0)
  + (if decide (v = i2 t) then 1 else 0).

(** The number of triangle slots, over the whole triangle set, that hold
    vertex [v]. *)
Definition slot_count (v : nat) (ind : list Tri) : nat :=
  sum_list (map (slots_of v) ind).

(** The three indices of the triangle are pairwise distinct. *)
Definition distinct_indices (t : Tri) : Prop :=
  i0 t <> i1 t /\ i0 t <> i2 t /\ i1 t <> i2 t.

(** The entry of the point-indexed face-vector array at point [j]: the raw
    face vector of the last triangle that references [j]. *)
Definition face_vector_at (verts : list Vec3) (ind : list Tri) (j : nat)
  : option Vec3 :=
  face_cross verts <$> last_incident ind j.

(** The sum of a list of vectors, accumulated from the zero vector. *)
Definition vec3_sum (l : list Vec3) : Vec3 :=
  foldl vec3.add (vec3.fromValues 0 0 0) l.

(** The face-vector array keyed by triangle-vertex slot, following the
    words of the specification: slot [3 i + k] holds the raw face vector of
    triangle [i]. *)
Definition faceVectorsBySlot (verts : list Vec3) (ind : list Tri) : list Vec3 :=
  flat_map (fun t => let n := face_cross verts t in [n; n; n]) ind.

(** [vertexNormals] as the specification words it: the adjacency entries
    index into the slot-keyed face-vector array. *)
Definition vertexNormalsBySlot (verts : list Vec3) (ind : list Tri)
  : result (list (option Vec3)) :=
  adjacency ← buildAdjacency (length verts) ind;
  let faceVecs := faceVectorsBySlot verts ind in
  for_each (fun norms i =>
    adj_i ← prop (adjacency !! i);
    n ← for_each (fun n j =>
           f ← prop (faceVecs !! j);
           Ok (vec3.add n f))
         adj_i (vec3.fromValues 0 0 0);
    Ok (array_set i (vec3.normalize n) norms))
  (seq 0 (length verts)) (replicate (length verts) None).

(** The azimuth of a normal: the angle of its normalized (x, y) part,
    wrapped by [angleRangeClamp]. *)
Definition azimuth (n : Vec3) : R :=
  let or := vec2.normalize (vec2.fromValues (c0 n) (c1 n)) in
  angleRangeClamp (Math.atan2 (v1 or) (v0 or)).

(** The angular bin of a normal, among 8 bins of width 2 PI / 8. *)
Definition orientation_bin (n : Vec3) : Z :=
  Zfloor (azimuth n / (2 * PI / 8)).

(** The scalar of a normal: its bin divided by 7. *)
Definition orientation_scalar (n : Vec3) : R :=
  (IZR (orientation_bin n) / 7)%R.

(** The three points, or the three normals, of an unwrapped triangle. *)
Abbreviation Triangle3 := (Vec3 * Vec3 * Vec3)%type.

(** The nine numbers of an unwrapped triangle, in array order. *)
Definition flat9 (t : Triangle3) : list R :=
  let '(p0, p1, p2) := t in coords p0 ++ coords p1 ++ coords p2.

(** The matrix [[a.a, a.b], [a.b, b.b]] of two vectors. *)
Definition gram (a b : Vec3) : Mat2 :=
  mkMat2 (vec3.dot a a) (vec3.dot a b) (vec3.dot a b) (vec3.dot b b).

Definition trace (m : Mat2) : R := (m0 m + m3 m)%R.

(** The energy of a triangle: trace (G^-1 H), with G from the edge vectors
    u = p1 - p0, v = p2 - p0 and H from the normal differences
    nu = n1 - n0, nv = n2 - n0. *)
Definition energy (pts nrm : Triangle3) : R :=
  let '(p0, p1, p2) := pts in
  let '(n0, n1, n2) := nrm in
  let G := gram (vec3_sub p1 p0) (vec3_sub p2 p0) in
  let H := gram (vec3_sub n1 n0) (vec3_sub n2 n0) in
  trace (mat2.multiply (mat2.invert G) H).

(** The energy, clamped at 1000. *)
Definition clamped_energy (pts nrm : Triangle3) : R :=
  Rmin (energy pts nrm) 1000.

(** The contrast curve. *)
Definition contrast (e : R) : R :=
  (1 - exp (2.99572315 - 15 * e) / 20)%R.

(** The scalar field of the specification: per triangle, three copies of
    the contrast curve applied to the clamped energy divided by the maximum
    clamped energy [M] of all triangles. *)
Definition variation_scalars (tris nrms : list Triangle3) : list R :=
  let es := zip_with clamped_energy tris nrms in
  let M := MaxRlist es in
  flat_map (fun e => let s := contrast (e / M) in [s; s; s]) es.

(** The update of the running maximum by one value. *)
Definition ext_update (l : ext) (e : R) : ext :=
  if gt_ext e l then Fin e else l.

(** One iteration of the first loop of [surfaceVariation]. *)
Definition variation_step (verts vNorms : list R) (st : variation_state)
    (i : nat) : option variation_state :=
  a0 ← verts !! i; a1 ← verts !! (i + 1)%nat; a2 ← verts !! (i + 2)%nat;
  a3 ← verts !! (i + 3)%nat; a4 ← verts !! (i + 4)%nat; a5 ← verts !! (i + 5)%nat;
  a6 ← verts !! (i + 6)%nat; a7 ← verts !! (i + 7)%nat; a8 ← verts !! (i + 8)%nat;
  let u := vec3.fromValues (a3 - a0) (a4 - a1) (a5 - a2) in
  let v := vec3.fromValues (a6 - a0) (a7 - a1) (a8 - a2) in
  let G := mkMat2 (vec3.dot u u) (vec3.dot u v) (vec3.dot u v) (vec3.dot v v) in
  b0 ← vNorms !! i; b1 ← vNorms !! (i + 1)%nat; b2 ← vNorms !! (i + 2)%nat;
  b3 ← vNorms !! (i + 3)%nat; b4 ← vNorms !! (i + 4)%nat; b5 ← vNorms !! (i + 5)%nat;
  b6 ← vNorms !! (i + 6)%nat; b7 ← vNorms !! (i + 7)%nat; b8 ← vNorms !! (i + 8)%nat;
  let nu := vec3.fromValues (b3 - b0) (b4 - b1) (b5 - b2) in
  let nv := vec3.fromValues (b6 - b0) (b7 - b1) (b8 - b2) in
  let H := mkMat2 (vec3.dot nu nu) (vec3.dot nu nv) (vec3.dot nu nv) (vec3.dot nv nv) in
  let G := mat2.invert G in
  let res := mat2.multiply G H in
  let trace := (m0 res + m3 res)%R in
  let trace := clampTrace trace in
  let scalars := scalars st ++ [trace; trace; trace] in
  if gt_ext trace (largest st) then
    Some (mkVariation (Fin trace) (smallest st) scalars)
  else if lt_ext trace (smallest st) then
    Some (mkVariation (largest st) (Fin trace) scalars)
  else
    Some (mkVariation (largest st) (smallest st) scalars).

(** The translation of a point set by [- c]. *)
Definition translate (c : Vec3) (points : list Vec3) : list Vec3 :=
  map (fun p => vec3_sub p c) points.

(** The opposite vector. *)
Definition vec3_opp (a : Vec3) : Vec3 :=
  mkVec3 (- c0 a) (- c1 a) (- c2 a).

(** The triangle with its second and third index exchanged: the same
    triangle wound the other way. *)
Definition flip (t : Tri) : Tri := mkTri (i0 t) (i2 t) (i1 t).

(** The three points of a triangle, read from a point array. *)
Definition corners (verts : list Vec3) (t : Tri) : Triangle3 :=
  (at_index origin verts (i0 t), at_index origin verts (i1 t),
   at_index origin verts (i2 t)).

(** The vector [a] multiplied by the number [s]. *)
Definition vec3_scale (s : R) (a : Vec3) : Vec3 :=
  mkVec3 (s * c0 a) (s * c1 a) (s * c2 a).

(** The triangle has a non-zero area: the cross product of its two edge
    vectors is not the zero vector. *)
Definition nondegenerate (pts : Triangle3) : Prop :=
  let '(p0, p1, p2) := pts in
  vec3.cross (vec3_sub p1 p0) (vec3_sub p2 p0) <> origin.

(** The three indices of a triangle, in array order. *)
Definition indices (t : Tri) : list nat := [i0 t; i1 t; i2 t].

(** A triangle as an array of three defined indices. *)
Definition index_triple (t : Tri) : IndexTriple :=
  (Some (i0 t), Some (i1 t), Some (i2 t)).

(** The three entries of an index triple are defined. *)
Definition fully_defined (tr : IndexTriple) : Prop :=
  let '(a, b, c) := tr in is_Some a /\ is_Some b /\ is_Some c.

(** The number is not NaN. *)
Definition not_nan (v : float) : Prop := PrimFloat.is_nan v = false.

(** [v <= w] on binary64 numbers. *)
Definition fle (v w : float) : Prop := PrimFloat.leb v w = true.

(** No coordinate of the point is NaN. *)
Definition no_nan (p : aabb.FPoint) : Prop :=
  not_nan (aabb.f0 p) /\ not_nan (aabb.f1 p) /\ not_nan (aabb.f2 p).

(** Every coordinate of the point is NaN. *)
Definition all_nan (p : aabb.FPoint) : Prop :=
  PrimFloat.is_nan (aabb.f0 p) = true /\ PrimFloat.is_nan (aabb.f1 p) = true
  /\ PrimFloat.is_nan (aabb.f2 p) = true.

(** The box contains the point, axis by axis. *)
Definition in_box (b : aabb.t) (p : aabb.FPoint) : Prop :=
  fle (aabb.x (aabb.min b)) (aabb.f0 p) /\ fle (aabb.f0 p) (aabb.x (aabb.max b))
  /\ fle (aabb.y (aabb.min b)) (aabb.f1 p) /\ fle (aabb.f1 p) (aabb.y (aabb.max b))
  /\ fle (aabb.z (aabb.min b)) (aabb.f2 p) /\ fle (aabb.f2 p) (aabb.z (aabb.max b)).

(** The scan of [getAabb] on one axis: the running minimum and maximum
    after one more value. *)
Definition scan_axis (lh : float * float) (v : float) : float * float :=
  (if PrimFloat.ltb v (fst lh) then v else fst lh,
   if PrimFloat.ltb (snd lh) v then v else snd lh).

(** The page position of a mouse event. *)
Definition position (e : viewer.MouseEvent) : R * R :=
  (viewer.pageX e, viewer.pageY e).

(** The displacements along a path that starts at [p]. *)
Fixpoint displacements (p : R * R) (ps : list (R * R)) : list (R * R) :=
  match ps with
  | [] => []
  | q :: ps' => ((fst q - fst p)%R, (snd q - snd p)%R) :: displacements q ps'
  end.

(** The sum of a list of displacements. *)
Definition total (ds : list (R * R)) : R * R :=
  fold_right (fun d acc => ((fst d + fst acc)%R, (snd d + snd acc)%R))
             (0%R, 0%R) ds.

(** The camera call of a drag step: an orbit under the left button
    (1), a pan otherwise. *)
Definition drag_call (w : N) (d : R * R) : viewer.camera_call :=
  if (w =? 1)%N then viewer.orbit (fst d * 0.004)%R (snd d * 0.004)%R
  else viewer.pan (fst d * -0.01)%R (snd d * 0.01)%R.

(** No drag is in progress. *)
Definition idle (s : viewer.state) : Prop :=
  viewer.onmousemove s = viewer.unassigned
  \/ viewer.onmousemove s = viewer.released.

(** The event is neither a press nor a turn of the wheel. *)
Definition move_or_release (ev : viewer.event) : Prop :=
  match ev with
  | viewer.mousemove _ | viewer.mouseup _ => True
  | _ => False
  end.

(** The arctangent near the positive x axis: at an angle as small as
    2^-60 the correctly rounded arctangent of [y / x] is [y / x] itself. *)
Definition small_angle_atan2 (y x : float) : float := (y / x)%float.






(** The callback ran through: nothing was thrown, no entry of the
    unwrapped normals is [undefined], and the arrays have nine coordinates
    per triangle in the unwrapped points and normals, three scalars per
    triangle in the two fields. *)
Definition well_formed (T : nat) (r : result viewer.MeshArrays) : Prop :=
  exists (verts_unwrapped norms_unwrapped curvature orientation : list R),
    r = Ok (verts_unwrapped, map Some norms_unwrapped,
            Some curvature, Some orientation)
    /\ length verts_unwrapped = (9 * T)%nat
    /\ length norms_unwrapped = (9 * T)%nat
    /\ length curvature = (3 * T)%nat
    /\ length orientation = (3 * T)%nat.

(** * Properties *)

(** ** Loops *)

Lemma for_each_app {A B : Type} (f : B -> A -> result B) (l1 l2 : list A) (b : B) :
  for_each f (l1 ++ l2) b = (b' ← for_each f l1 b; for_each f l2 b').
Proof.
  revert b. induction l1 as [|a l1 IH]; intros b; simpl; [reflexivity|].
  destruct (f b a) as [b'|e]; simpl; [apply IH | reflexivity].
Qed.

Lemma range_step_multiples (step fuel j m : nat) :
  0 < step -> m - j <= fuel ->
  range_step fuel (step * j) (step * m) step
  = map (fun k => step * k) (seq j (m - j)).
Proof.
  intros Hstep. revert j. induction fuel as [|fuel IH]; intros j Hfuel; simpl.
  - replace (m - j) with 0 by lia. reflexivity.
  - destruct (decide (step * j < step * m)) as [Hlt|Hge].
    + assert (Hj : j < m) by nia.
      replace (m - j) with (S (m - S j)) by lia. simpl. f_equal.
      replace (step * j + step) with (step * S j) by lia.
      apply IH. lia.
    + assert (Hj : m <= j) by nia.
      replace (m - j) with 0 by lia. reflexivity.
Qed.

Lemma range_step_whole (step m : nat) :
  0 < step ->
  range_step (step * m) 0 (step * m) step = map (fun k => step * k) (seq 0 m).
Proof.
  intros Hstep.
  pose proof (range_step_multiples step (step * m) 0 m Hstep) as H.
  rewrite Nat.mul_0_r, Nat.sub_0_r in H. apply H. nia.
Qed.

Lemma length_flat_map_chunks {A B : Type} (f : A -> list B) (w : nat) (l : list A) :
  (forall a, length (f a) = w) -> length (flat_map f l) = w * length l.
Proof.
  intros Hw. induction l as [|a l IH]; simpl; [lia|].
  rewrite length_app, IH, Hw. lia.
Qed.

Lemma lookup_flat_map_chunk {A B : Type} (f : A -> list B) (w : nat)
    (pre : list A) (a : A) (rest : list A) (r : nat) :
  (forall a, length (f a) = w) -> r < w ->
  flat_map f (pre ++ a :: rest) !! (w * length pre + r) = f a !! r.
Proof.
  intros Hw Hr. rewrite flat_map_app. simpl.
  rewrite lookup_app_r by (rewrite (length_flat_map_chunks f w) by assumption; lia).
  rewrite (length_flat_map_chunks f w) by assumption.
  replace (w * length pre + r - w * length pre) with r by lia.
  apply lookup_app_l. rewrite Hw. exact Hr.
Qed.

Lemma prop_lookup_lt {A : Type} (d : A) (v : list A) (i : nat) :
  i < length v -> prop (v !! i) = Ok (at_index d v i).
Proof.
  intros Hi. unfold at_index.
  destruct (lookup_lt_is_Some_2 v i Hi) as [x Hx].
  rewrite Hx. simpl. f_equal. symmetry. apply nth_lookup_Some with (d := d) in Hx. exact Hx.
Qed.

(** ** unwrapVectorArray, unwrapArray *)

Lemma unwrapArray_loop {A : Type} (v : list A) (inds : list Tri) (acc : list (option A)) :
  for_each (fun values t => Ok (values ++ [v !! i0 t; v !! i1 t; v !! i2 t])) inds acc
  = Ok (acc ++ flat_map (fun t => [v !! i0 t; v !! i1 t; v !! i2 t]) inds).
Proof.
  revert acc. induction inds as [|t inds IH]; intros acc; simpl.
  - now rewrite app_nil_r.
  - rewrite IH. now rewrite <- app_assoc.
Qed.

Lemma unwrapArray_lookups {A : Type} (v : list A) (inds : list Tri) :
  unwrapArray v inds
  = Ok (flat_map (fun t => [v !! i0 t; v !! i1 t; v !! i2 t]) inds).
Proof. unfold unwrapArray. now rewrite unwrapArray_loop. Qed.

Lemma lookup_at_index {A : Type} (d : A) (v : list A) (i : nat) :
  i < length v -> v !! i = Some (at_index d v i).
Proof.
  intros Hi. destruct (lookup_lt_is_Some_2 v i Hi) as [x Hx].
  rewrite Hx. f_equal. symmetry. now apply nth_lookup_Some.
Qed.

Lemma unwrapArray_in_range {A : Type} (d : A) (v : list A) (inds : list Tri) :
  all_in_range (length v) inds ->
  unwrapArray v inds = Ok (map Some (unwrapped d v inds)).
Proof.
  intros Hr. rewrite unwrapArray_lookups. f_equal. unfold unwrapped.
  induction Hr as [|t inds (H0 & H1 & H2) _ IH]; simpl; [reflexivity|].
  now rewrite IH, !(lookup_at_index d).
Qed.

Lemma unwrapVectorArray_loop (v : list Vec3) (inds : list Tri) (acc : list R) :
  all_in_range (length v) inds ->
  for_each (fun verts t =>
    p ← prop (v !! i0 t);
    let verts := verts ++ [c0 p; c1 p; c2 p] in
    p ← prop (v !! i1 t);
    let verts := verts ++ [c0 p; c1 p; c2 p] in
    p ← prop (v !! i2 t);
    let verts := verts ++ [c0 p; c1 p; c2 p] in
    Ok verts) inds acc
  = Ok (acc ++ flat_map coords (unwrapped origin v inds)).
Proof.
  intros Hr. revert acc.
  induction Hr as [|t inds (H0 & H1 & H2) _ IH]; intros acc; simpl.
  - now rewrite app_nil_r.
  - rewrite !(prop_lookup_lt origin) by assumption. simpl.
    rewrite IH. f_equal. now rewrite <- !app_assoc.
Qed.

Lemma unwrapVectorArray_in_range (v : list Vec3) (inds : list Tri) :
  all_in_range (length v) inds ->
  unwrapVectorArray v inds = Ok (flat_map coords (unwrapped origin v inds)).
Proof. intros Hr. unfold unwrapVectorArray. now rewrite unwrapVectorArray_loop. Qed.

(** C7.  For a per-vertex array and a triangle set whose indices are all in
    range, [unwrapArray] returns, for each triangle in order, the array's
    value at each of the triangle's three indices, and [unwrapVectorArray]
    the coordinates of the point at each of these indices; on the single
    triangle (0,1,2) over three points the latter returns the nine
    coordinates of the three points in index order. *)
Theorem unwrap_appends_indexed_values :
  forall (A : Type) (d : A) (values : list A) (points : list Vec3) (inds : list Tri),
    all_in_range (length values) inds ->
    all_in_range (length points) inds ->
    unwrapArray values inds = Ok (map Some (unwrapped d values inds))
    /\ unwrapVectorArray points inds
       = Ok (flat_map coords (unwrapped origin points inds))
    /\ forall p0 p1 p2 : Vec3,
         unwrapVectorArray [p0; p1; p2] [mkTri 0 1 2]
         = Ok [c0 p0; c1 p0; c2 p0; c0 p1; c1 p1; c2 p1; c0 p2; c1 p2; c2 p2].
Proof.
  intros A d values points inds Hv Hp. split; [|split].
  - now apply unwrapArray_in_range.
  - now apply unwrapVectorArray_in_range.
  - intros p0 p1 p2. reflexivity.
Qed.

Lemma unwrap_appends_indexed_values_witness :
  unwrapArray [10%nat; 20%nat; 30%nat] [mkTri 0 1 2; mkTri 2 1 0]
  = Ok (map Some [10%nat; 20%nat; 30%nat; 30%nat; 20%nat; 10%nat])
  /\ unwrapVectorArray [mkVec3 1 2 3; mkVec3 4 5 6; mkVec3 7 8 9]
                       [mkTri 0 1 2; mkTri 2 1 0]
     = Ok [1; 2; 3; 4; 5; 6; 7; 8; 9; 7; 8; 9; 4; 5; 6; 1; 2; 3]%R.
Proof.
  pose proof (unwrap_appends_indexed_values nat 0%nat
                [10%nat; 20%nat; 30%nat]
                [mkVec3 1 2 3; mkVec3 4 5 6; mkVec3 7 8 9]
                [mkTri 0 1 2; mkTri 2 1 0]) as H.
  destruct H as (H1 & H2 & _).
  - repeat constructor.
  - repeat constructor.
  - split; [exact H1 | exact H2].
Defined.

(** ** faceNormals, faceVectors *)

Lemma faceNormals_face_step (verts : list Vec3) (ind : list Tri) :
  faceNormals verts ind
  = for_each (face_step vec3.normalize verts) ind (replicate (length verts) None).
Proof. reflexivity. Qed.

Lemma faceVectors_face_step (verts : list Vec3) (ind : list Tri) :
  faceVectors verts ind
  = for_each (face_step (fun n => n) verts) ind (replicate (length verts) None).
Proof. reflexivity. Qed.

Lemma Vec3_eta (n : Vec3) : mkVec3 (c0 n) (c1 n) (c2 n) = n.
Proof. now destruct n. Qed.

Lemma array_set_in_range {A : Type} (i : nat) (x : A) (a : list (option A)) :
  i < length a -> array_set i x a = <[i := Some x]> a.
Proof. intros Hi. unfold array_set. now rewrite decide_True. Qed.

Lemma last_incident_snoc (pre : list Tri) (t : Tri) (v : nat) :
  last_incident (pre ++ [t]) v
  = if decide (incident v t) then Some t else last_incident pre v.
Proof.
  unfold last_incident. rewrite filter_app, last_app.
  destruct (decide (incident v t)) as [Hi|Hi].
  - now rewrite (filter_cons_True _ _ _ Hi).
  - now rewrite (filter_cons_False _ _ _ Hi).
Qed.

Lemma face_array_length f n ind : length (face_array f n ind) = n.
Proof. unfold face_array. now rewrite length_map, length_seq. Qed.

Lemma face_array_lookup f n ind v :
  v < n -> face_array f n ind !! v = Some (f <$> last_incident ind v).
Proof.
  intros Hv. unfold face_array.
  rewrite list_lookup_fmap, lookup_seq_lt by assumption. reflexivity.
Qed.

Lemma face_array_lookup_ge f n ind v :
  n <= v -> face_array f n ind !! v = None.
Proof.
  intros Hv. apply lookup_ge_None_2. now rewrite face_array_length.
Qed.

Lemma face_array_nil f n : face_array f n [] = replicate n None.
Proof.
  apply list_eq. intros v. destruct (decide (v < n)) as [Hv|Hv].
  - rewrite face_array_lookup, lookup_replicate_2 by assumption. reflexivity.
  - rewrite face_array_lookup_ge by lia.
    symmetry. apply lookup_replicate_None. lia.
Qed.

Lemma face_array_snoc f n pre t :
  tri_in_range n t ->
  array_set (i2 t) (f t) (array_set (i1 t) (f t) (array_set (i0 t) (f t)
    (face_array f n pre)))
  = face_array f n (pre ++ [t]).
Proof.
  intros (H0 & H1 & H2).
  rewrite (array_set_in_range (i0 t)) by now rewrite face_array_length.
  rewrite (array_set_in_range (i1 t))
    by now rewrite length_insert, face_array_length.
  rewrite (array_set_in_range (i2 t))
    by now rewrite !length_insert, face_array_length.
  apply list_eq. intros v.
  rewrite !list_lookup_insert, !length_insert, face_array_length.
  destruct (decide (v < n)) as [Hv|Hv].
  - rewrite !face_array_lookup by assumption. rewrite last_incident_snoc.
    unfold incident.
    repeat (destruct (decide _) as [?|?]); simpl; try reflexivity;
      exfalso; intuition lia.
  - rewrite !face_array_lookup_ge by lia.
    repeat (destruct (decide _) as [?|?]); simpl; try reflexivity; lia.
Qed.

Lemma face_step_in_range finish verts norms t :
  tri_in_range (length verts) t ->
  face_step finish verts norms t
  = Ok (let n := finish (face_cross verts t) in
        array_set (i2 t) n (array_set (i1 t) n (array_set (i0 t) n norms))).
Proof.
  intros (H0 & H1 & H2). unfold face_step.
  rewrite !(prop_lookup_lt origin) by assumption. simpl.
  rewrite Vec3_eta. reflexivity.
Qed.

Lemma face_loop_in_range finish verts ind pre :
  all_in_range (length verts) ind ->
  for_each (face_step finish verts) ind
    (face_array (fun t => finish (face_cross verts t)) (length verts) pre)
  = Ok (face_array (fun t => finish (face_cross verts t)) (length verts) (pre ++ ind)).
Proof.
  intros Hr. revert pre.
  induction Hr as [|t ind Ht _ IH]; intros pre; simpl.
  - now rewrite app_nil_r.
  - rewrite face_step_in_range by assumption. simpl.
    rewrite (face_array_snoc (fun t => finish (face_cross verts t))) by assumption.
    rewrite IH. now rewrite <- app_assoc.
Qed.

Lemma faceNormals_in_range verts ind :
  all_in_range (length verts) ind ->
  faceNormals verts ind = Ok (face_array (face_normal verts) (length verts) ind).
Proof.
  intros Hr. rewrite faceNormals_face_step.
  rewrite <- (face_array_nil (face_normal verts)).
  apply (face_loop_in_range vec3.normalize verts ind [] Hr).
Qed.

Lemma faceVectors_in_range verts ind :
  all_in_range (length verts) ind ->
  faceVectors verts ind = Ok (face_array (face_cross verts) (length verts) ind).
Proof.
  intros Hr. rewrite faceVectors_face_step.
  rewrite <- (face_array_nil (face_cross verts)).
  apply (face_loop_in_range (fun n => n) verts ind [] Hr).
Qed.

Lemma last_incident_None (ind : list Tri) (v : nat) :
  last_incident ind v = None <-> forall t, t ∈ ind -> ~ incident v t.
Proof.
  unfold last_incident. rewrite last_None. split.
  - intros Hnil t Ht Hi. now apply (filter_nil_not_elem_of _ _ t Hnil).
  - intros Hno. destruct (filter (incident v) ind) as [|t l] eqn:E; [reflexivity|].
    assert (Ht : t ∈ filter (incident v) ind) by (rewrite E; left).
    apply list_elem_of_filter in Ht as [Hi Ht]. now destruct (Hno t Ht).
Qed.

Lemma last_incident_Some (ind : list Tri) (v : nat) (t : Tri) :
  last_incident ind v = Some t -> t ∈ ind /\ incident v t.
Proof.
  unfold last_incident. intros Hl. apply last_Some_elem_of in Hl.
  apply list_elem_of_filter in Hl. tauto.
Qed.

Lemma last_incident_is_Some (ind : list Tri) (v : nat) (t : Tri) :
  t ∈ ind -> incident v t -> exists t', last_incident ind v = Some t'.
Proof.
  intros Ht Hi. destruct (last_incident ind v) as [t'|] eqn:E; [now exists t'|].
  rewrite last_incident_None in E. now destruct (E t Ht).
Qed.

Lemma all_in_range_app n l1 l2 :
  all_in_range n (l1 ++ l2) <-> all_in_range n l1 /\ all_in_range n l2.
Proof. unfold all_in_range. apply Forall_app. Qed.

(** C4.  For a point set and a triangle set with indices in range,
    [faceNormals] returns an array in which, once a triangle (a,b,c) has
    been processed, the slots a, b and c all hold
    normalize((P[b]-P[a]) x (P[c]-P[a])); and in the returned array the slot
    of every vertex holds the normal of the triangle processed last, in
    iteration order, among those that reference the vertex. *)
Theorem faceNormals_last_triangle_wins :
  forall (verts : list Vec3) (ind : list Tri),
    all_in_range (length verts) ind ->
    exists norms,
      faceNormals verts ind = Ok norms
      /\ (forall pre t post, ind = pre ++ t :: post ->
            exists mid,
              faceNormals verts (pre ++ [t]) = Ok mid
              /\ mid !! i0 t = Some (Some (face_normal verts t))
              /\ mid !! i1 t = Some (Some (face_normal verts t))
              /\ mid !! i2 t = Some (Some (face_normal verts t)))
      /\ (forall v t, v < length verts -> last_incident ind v = Some t ->
            norms !! v = Some (Some (face_normal verts t))).
Proof.
  intros verts ind Hr. eexists. split; [now apply faceNormals_in_range|]. split.
  - intros pre t post ->.
    apply all_in_range_app in Hr as [Hpre Hpost].
    assert (Ht : tri_in_range (length verts) t) by now inversion Hpost.
    assert (Hr' : all_in_range (length verts) (pre ++ [t])).
    { apply all_in_range_app. split; [assumption|].
      constructor; [exact Ht | constructor]. }
    eexists. split; [now apply faceNormals_in_range|].
    destruct Ht as (H0 & H1 & H2).
    rewrite !face_array_lookup by assumption.
    rewrite !last_incident_snoc. unfold incident.
    rewrite !decide_True by tauto. now repeat split.
  - intros v t Hv Hl. rewrite face_array_lookup by assumption. now rewrite Hl.
Qed.

Lemma faceNormals_last_triangle_wins_witness :
  exists norms,
    faceNormals [mkVec3 0 0 0; mkVec3 1 0 0; mkVec3 0 1 0; mkVec3 0 0 1]
                [mkTri 0 1 2; mkTri 0 3 1] = Ok norms
    /\ norms !! 0%nat
       = Some (Some (face_normal
                       [mkVec3 0 0 0; mkVec3 1 0 0; mkVec3 0 1 0; mkVec3 0 0 1]
                       (mkTri 0 3 1)))
    /\ norms !! 2%nat
       = Some (Some (face_normal
                       [mkVec3 0 0 0; mkVec3 1 0 0; mkVec3 0 1 0; mkVec3 0 0 1]
                       (mkTri 0 1 2))).
Proof.
  destruct (faceNormals_last_triangle_wins
              [mkVec3 0 0 0; mkVec3 1 0 0; mkVec3 0 1 0; mkVec3 0 0 1]
              [mkTri 0 1 2; mkTri 0 3 1]) as (norms & Hn & _ & Hlast).
  - repeat constructor.
  - exists norms. split; [exact Hn|]. split.
    + apply Hlast; [simpl; lia | reflexivity].
    + apply Hlast; [simpl; lia | reflexivity].
Defined.

(** C10.  For a point set and a triangle set with indices in range, the
    array returned by [faceNormals] has one slot per point, and the slot of
    a vertex holds a normal exactly when some triangle references the
    vertex: the slot of a vertex that appears in no triangle is a hole
    (nothing is ever assigned to it). *)
Theorem faceNormals_unreferenced_vertex_is_hole :
  forall (verts : list Vec3) (ind : list Tri),
    all_in_range (length verts) ind ->
    exists norms,
      faceNormals verts ind = Ok norms
      /\ length norms = length verts
      /\ forall v, v < length verts ->
           ((forall t, t ∈ ind -> ~ incident v t) -> norms !! v = Some None)
           /\ (forall t, t ∈ ind -> incident v t ->
                 exists n, norms !! v = Some (Some n)).
Proof.
  intros verts ind Hr. eexists. split; [now apply faceNormals_in_range|].
  split; [apply face_array_length|].
  intros v Hv. rewrite face_array_lookup by assumption. split.
  - intros Hno. apply last_incident_None in Hno. now rewrite Hno.
  - intros t Ht Hi. destruct (last_incident_is_Some ind v t Ht Hi) as [t' Ht'].
    rewrite Ht'. now eexists.
Qed.

Lemma faceNormals_unreferenced_vertex_is_hole_witness :
  exists norms,
    faceNormals [mkVec3 0 0 0; mkVec3 1 0 0; mkVec3 0 1 0; mkVec3 0 0 1]
                [mkTri 1 2 3] = Ok norms
    /\ length norms = 4%nat
    /\ norms !! 0%nat = Some None.
Proof.
  destruct (faceNormals_unreferenced_vertex_is_hole
              [mkVec3 0 0 0; mkVec3 1 0 0; mkVec3 0 1 0; mkVec3 0 0 1]
              [mkTri 1 2 3]) as (norms & Hn & Hlen & Hslots).
  - repeat constructor.
  - exists norms. split; [exact Hn|]. split; [exact Hlen|].
    apply (Hslots 0%nat); [simpl; lia|].
    intros t Ht Hi. apply list_elem_of_singleton in Ht. subst t.
    unfold incident in Hi. simpl in Hi. lia.
Defined.

(** ** Indices out of range *)

Lemma for_each_throws {A B : Type} (f : B -> A -> result B)
    (inv : B -> Prop) (bad : A -> Prop) (l : list A) (b : B) :
  (forall b a, inv b -> bad a -> f b a = Throw TypeError) ->
  (forall b a b', inv b -> f b a = Ok b' -> inv b') ->
  inv b -> Exists bad l ->
  for_each f l b = Throw TypeError.
Proof.
  intros Hbad Hinv Hb Hex. revert b Hb.
  induction Hex as [a l Ha|a l _ IH]; intros b Hb; simpl.
  - now rewrite Hbad.
  - destruct (f b a) as [b'|[]] eqn:E; simpl; [|reflexivity].
    apply IH. now apply (Hinv b a).
Qed.

Lemma unwrapVectorArray_out_of_range (v : list Vec3) (inds : list Tri) :
  Exists (out_of_range (length v)) inds ->
  unwrapVectorArray v inds = Throw TypeError.
Proof.
  intros Hex. unfold unwrapVectorArray.
  apply (for_each_throws _ (fun _ => True) (out_of_range (length v)));
    [|trivial|trivial|assumption].
  intros verts t _ Hbad.
  destruct (v !! i0 t) as [p0|] eqn:E0; simpl; [|reflexivity].
  destruct (v !! i1 t) as [p1|] eqn:E1; simpl; [|reflexivity].
  destruct (v !! i2 t) as [p2|] eqn:E2; simpl; [|reflexivity].
  apply lookup_lt_Some in E0, E1, E2. unfold out_of_range in Hbad. lia.
Qed.

Lemma face_step_out_of_range finish verts norms t :
  out_of_range (length verts) t ->
  face_step finish verts norms t = Throw TypeError.
Proof.
  intros Hbad. unfold face_step.
  destruct (verts !! i1 t) as [p1|] eqn:E1; simpl; [|reflexivity].
  destruct (verts !! i0 t) as [p0|] eqn:E0; simpl; [|reflexivity].
  destruct (verts !! i2 t) as [p2|] eqn:E2; simpl; [|reflexivity].
  apply lookup_lt_Some in E0, E1, E2. unfold out_of_range in Hbad. lia.
Qed.

Lemma faceNormals_out_of_range (verts : list Vec3) (ind : list Tri) :
  Exists (out_of_range (length verts)) ind ->
  faceNormals verts ind = Throw TypeError.
Proof.
  intros Hex. rewrite faceNormals_face_step.
  apply (for_each_throws _ (fun _ => True) (out_of_range (length verts)));
    [|trivial|trivial|assumption].
  intros norms t _. apply face_step_out_of_range.
Qed.

Lemma buildAdjacency_out_of_range (n : nat) (ind : list Tri) :
  Exists (out_of_range n) ind ->
  buildAdjacency n ind = Throw TypeError.
Proof.
  intros Hex. unfold buildAdjacency.
  apply (for_each_throws _ (fun adj => length adj = n) (out_of_range n));
    [| |apply length_replicate|assumption].
  - intros adj t Hlen Hbad.
    destruct (adj !! i0 t) as [l0|] eqn:E0; simpl; [|reflexivity].
    destruct (<[i0 t:=l0 ++ [i1 t; i2 t]]> adj !! i1 t) as [l1|] eqn:E1;
      simpl; [|reflexivity].
    destruct (<[i1 t:=l1 ++ [i0 t; i2 t]]>
                (<[i0 t:=l0 ++ [i1 t; i2 t]]> adj) !! i2 t) as [l2|] eqn:E2;
      simpl; [|reflexivity].
    apply lookup_lt_Some in E0, E1, E2.
    rewrite !length_insert in *. unfold out_of_range in Hbad. lia.
  - intros adj t adj' Hlen.
    destruct (adj !! i0 t) as [l0|]; simpl; [|discriminate].
    destruct (<[i0 t:=l0 ++ [i1 t; i2 t]]> adj !! i1 t) as [l1|];
      simpl; [|discriminate].
    destruct (<[i1 t:=l1 ++ [i0 t; i2 t]]>
                (<[i0 t:=l0 ++ [i1 t; i2 t]]> adj) !! i2 t) as [l2|];
      simpl; [|discriminate].
    intros [= <-]. now rewrite !length_insert.
Qed.

Lemma vertexNormals_out_of_range (verts : list Vec3) (ind : list Tri) :
  Exists (out_of_range (length verts)) ind ->
  vertexNormals verts ind = Throw TypeError.
Proof.
  intros Hex. unfold vertexNormals.
  now rewrite buildAdjacency_out_of_range.
Qed.

Lemma unwrapArray_out_of_range {A : Type} (v : list A) (inds : list Tri) :
  Exists (out_of_range (length v)) inds ->
  exists out, unwrapArray v inds = Ok out /\ None ∈ out.
Proof.
  intros Hex. rewrite unwrapArray_lookups. eexists. split; [reflexivity|].
  induction Hex as [t l Hbad|t l _ IH]; simpl.
  - destruct Hbad as [H|[H|H]]; rewrite (lookup_ge_None_2 _ _ H).
    + left.
    + right. left.
    + right. right. left.
  - do 3 right. exact IH.
Qed.

(** ** vertexNormals *)

Lemma adjacency_of_length n ind : length (adjacency_of n ind) = n.
Proof. unfold adjacency_of. now rewrite length_map, length_seq. Qed.

Lemma adjacency_of_lookup n ind v :
  v < n -> adjacency_of n ind !! v = Some (flat_map (neighbours v) ind).
Proof.
  intros Hv. unfold adjacency_of.
  rewrite list_lookup_fmap, lookup_seq_lt by assumption. reflexivity.
Qed.

Lemma adjacency_of_lookup_ge n ind v :
  n <= v -> adjacency_of n ind !! v = None.
Proof. intros Hv. apply lookup_ge_None_2. now rewrite adjacency_of_length. Qed.

Lemma adjacency_of_nil n : adjacency_of n [] = replicate n [].
Proof.
  apply list_eq. intros v. destruct (decide (v < n)) as [Hv|Hv].
  - rewrite adjacency_of_lookup, lookup_replicate_2 by assumption. reflexivity.
  - rewrite adjacency_of_lookup_ge by lia.
    symmetry. apply lookup_replicate_None. lia.
Qed.

Lemma flat_map_snoc {A B : Type} (f : A -> list B) (l : list A) (a : A) :
  flat_map f (l ++ [a]) = flat_map f l ++ f a.
Proof. rewrite flat_map_app. simpl. now rewrite app_nil_r. Qed.

Ltac split_decide :=
  repeat match goal with
         | |- context [decide ?P] => destruct (decide P); try lia; simpl
         end.

Lemma buildAdjacency_step n pre t :
  tri_in_range n t ->
  (l ← prop (adjacency_of n pre !! i0 t);
   let adjacency := <[i0 t := l ++ [i1 t; i2 t]]> (adjacency_of n pre) in
   l ← prop (adjacency !! i1 t);
   let adjacency := <[i1 t := l ++ [i0 t; i2 t]]> adjacency in
   l ← prop (adjacency !! i2 t);
   let adjacency := <[i2 t := l ++ [i0 t; i1 t]]> adjacency in
   Ok adjacency)
  = Ok (adjacency_of n (pre ++ [t])).
Proof.
  destruct t as [a b c]. unfold tri_in_range. simpl. intros (H0 & H1 & H2).
  rewrite adjacency_of_lookup by assumption. simpl.
  rewrite list_lookup_insert, adjacency_of_length, adjacency_of_lookup by assumption.
  destruct (decide (a = b)) as [<-|Nab];
    destruct (decide (a = c)) as [<-|Nac];
    try (destruct (decide (b = c)) as [<-|Nbc]);
    split_decide;
    rewrite ?list_lookup_insert, ?length_insert, ?adjacency_of_length,
      ?adjacency_of_lookup by assumption;
    split_decide;
    f_equal; apply list_eq; intros v;
    rewrite ?list_lookup_insert, ?length_insert, ?adjacency_of_length;
    (destruct (decide (v < n)) as [Hv|Hv];
     [ rewrite ?adjacency_of_lookup by assumption;
       rewrite flat_map_snoc; unfold neighbours; simpl;
       destruct (decide (v = a)) as [->|Nva];
       try (destruct (decide (v = b)) as [->|Nvb]);
       try (destruct (decide (v = c)) as [->|Nvc]);
       split_decide; try tauto; try congruence;
       rewrite <- ?app_assoc; simpl; rewrite ?app_nil_r; reflexivity
     | rewrite ?adjacency_of_lookup_ge by lia;
       split_decide; try tauto; reflexivity ]).
Qed.

Lemma buildAdjacency_loop n ind pre :
  all_in_range n ind ->
  for_each (fun adjacency t =>
    l ← prop (adjacency !! i0 t);
    let adjacency := <[i0 t := l ++ [i1 t; i2 t]]> adjacency in
    l ← prop (adjacency !! i1 t);
    let adjacency := <[i1 t := l ++ [i0 t; i2 t]]> adjacency in
    l ← prop (adjacency !! i2 t);
    let adjacency := <[i2 t := l ++ [i0 t; i1 t]]> adjacency in
    Ok adjacency) ind (adjacency_of n pre)
  = Ok (adjacency_of n (pre ++ ind)).
Proof.
  intros Hr. revert pre.
  induction Hr as [|t ind Ht _ IH]; intros pre.
  - simpl. now rewrite app_nil_r.
  - cbn [for_each]. cbn beta.
    pose proof (buildAdjacency_step n pre t Ht) as Hstep. cbn zeta in Hstep.
    cbn zeta. rewrite Hstep.
    simpl. rewrite IH. now rewrite <- app_assoc.
Qed.

Lemma buildAdjacency_in_range n ind :
  all_in_range n ind -> buildAdjacency n ind = Ok (adjacency_of n ind).
Proof.
  intros Hr. unfold buildAdjacency. rewrite <- adjacency_of_nil.
  apply (buildAdjacency_loop n ind [] Hr).
Qed.

Lemma length_neighbours v t : length (neighbours v t) = 2 * slots_of v t.
Proof. unfold neighbours, slots_of. split_decide; reflexivity. Qed.

Lemma length_adjacency_entries v ind :
  length (flat_map (neighbours v) ind) = 2 * slot_count v ind.
Proof.
  unfold slot_count. induction ind as [|t ind IH]; simpl; [reflexivity|].
  rewrite length_app, IH, length_neighbours. lia.
Qed.

Lemma slots_of_distinct v t :
  distinct_indices t ->
  slots_of v t = if decide (incident v t) then 1 else 0.
Proof.
  unfold distinct_indices, slots_of, incident. intros (N01 & N02 & N12).
  split_decide; try reflexivity; exfalso; intuition congruence.
Qed.

Lemma slot_count_distinct v ind :
  Forall distinct_indices ind ->
  slot_count v ind = length (filter (incident v) ind).
Proof.
  unfold slot_count. induction 1 as [|t ind Ht _ IH]; simpl; [reflexivity|].
  rewrite IH, slots_of_distinct by assumption. rewrite filter_cons.
  destruct (decide (incident v t)); reflexivity.
Qed.

Lemma neighbours_incident v t j : j ∈ neighbours v t -> incident j t.
Proof.
  unfold neighbours, incident. rewrite !elem_of_app.
  split_decide; rewrite ?elem_of_cons, ?elem_of_nil; tauto.
Qed.

Lemma adjacency_entry_referenced v ind j :
  j ∈ flat_map (neighbours v) ind -> exists t, last_incident ind j = Some t.
Proof.
  intros Hj. apply list_elem_of_In, in_flat_map in Hj as (t & Ht & Hj).
  apply list_elem_of_In in Ht, Hj.
  apply (last_incident_is_Some ind j t Ht). now apply (neighbours_incident v).
Qed.

(** A loop that assigns slot [i] of a fresh array at iteration [i]. *)
Lemma fill_loop {A : Type} (step : list (option A) -> nat -> result (list (option A)))
    (P : nat -> A -> Prop) (n : nat) :
  (forall norms i, i < n ->
     exists x, step norms i = Ok (array_set i x norms) /\ P i x) ->
  exists norms,
    for_each step (seq 0 n) (replicate n None) = Ok norms
    /\ length norms = n
    /\ forall i, i < n -> exists x, norms !! i = Some (Some x) /\ P i x.
Proof.
  intros Hstep.
  assert (Hk : forall k, k <= n ->
    exists norms,
      for_each step (seq 0 k) (replicate n None) = Ok norms
      /\ length norms = n
      /\ forall i, i < k -> exists x, norms !! i = Some (Some x) /\ P i x).
  { induction k as [|k IH]; intros Hle.
    - exists (replicate n None). split; [reflexivity|].
      split; [apply length_replicate | intros i Hi; lia].
    - destruct IH as (norms & Hrun & Hlen & Hslots); [lia|].
      destruct (Hstep norms k) as (x & Hx & HP); [lia|].
      exists (array_set k x norms).
      rewrite seq_S, for_each_app, Hrun. simpl. rewrite Hx. simpl.
      split; [reflexivity|].
      rewrite array_set_in_range by lia. rewrite length_insert.
      split; [assumption|]. intros i Hi.
      destruct (decide (i = k)) as [->|Hne].
      + exists x. rewrite list_lookup_insert_eq by lia. now split.
      + rewrite list_lookup_insert_ne by congruence. apply Hslots. lia. }
  apply Hk. lia.
Qed.

Lemma vertex_sum_loop (faceVecs : list (option Vec3)) (adj : list nat)
    (vecs : list Vec3) (acc : Vec3) :
  Forall2 (fun j f => mjoin (faceVecs !! j) = Some f) adj vecs ->
  for_each (fun n j =>
      f ← prop (mjoin (faceVecs !! j));
      Ok (vec3.add n (vec3.fromValues (c0 f) (c1 f) (c2 f)))) adj acc
  = Ok (foldl vec3.add acc vecs).
Proof.
  intros H. revert acc. induction H as [|j f adj vecs Hj _ IH]; intros acc; simpl.
  - reflexivity.
  - rewrite Hj. simpl. unfold vec3.fromValues. rewrite Vec3_eta. apply IH.
Qed.

Lemma face_array_join verts n ind j :
  j < n ->
  mjoin (face_array (face_cross verts) n ind !! j) = face_vector_at verts ind j.
Proof. intros Hj. now rewrite face_array_lookup. Qed.

Lemma incident_in_range n t j : tri_in_range n t -> incident j t -> j < n.
Proof. unfold tri_in_range, incident. lia. Qed.

Lemma adjacency_entries_vectors verts ind v :
  all_in_range (length verts) ind ->
  exists vecs,
    Forall2 (fun j f => j < length verts /\ face_vector_at verts ind j = Some f)
            (flat_map (neighbours v) ind) vecs.
Proof.
  intros Hr.
  assert (H : Forall (fun j => exists f,
              j < length verts /\ face_vector_at verts ind j = Some f)
            (flat_map (neighbours v) ind)).
  { apply Forall_forall. intros j Hj.
    destruct (adjacency_entry_referenced v ind j Hj) as [t Ht].
    exists (face_cross verts t). split.
    - apply last_incident_Some in Ht as [Hin Hi].
      unfold all_in_range in Hr. rewrite Forall_forall in Hr.
      now apply (incident_in_range _ t); [apply Hr|].
    - unfold face_vector_at. now rewrite Ht. }
  induction H as [|j l (f & Hf) _ (vecs & IH)].
  - exists []. constructor.
  - exists (f :: vecs). now constructor.
Qed.

Lemma vertexNormals_in_range (verts : list Vec3) (ind : list Tri) :
  all_in_range (length verts) ind ->
  exists norms,
    vertexNormals verts ind = Ok norms
    /\ length norms = length verts
    /\ forall v, v < length verts ->
         exists x, norms !! v = Some (Some x)
           /\ exists vecs,
                Forall2 (fun j f => j < length verts
                                    /\ face_vector_at verts ind j = Some f)
                        (flat_map (neighbours v) ind) vecs
                /\ x = vec3.normalize (vec3_sum vecs).
Proof.
  intros Hr. unfold vertexNormals.
  rewrite buildAdjacency_in_range, faceVectors_in_range by assumption. simpl.
  apply fill_loop. intros norms v Hv.
  destruct (adjacency_entries_vectors verts ind v Hr) as [vecs Hvecs].
  exists (vec3.normalize (vec3_sum vecs)).
  rewrite adjacency_of_lookup by assumption. simpl.
  rewrite (vertex_sum_loop _ _ vecs).
  - simpl. split; [reflexivity|]. now exists vecs.
  - eapply Forall2_impl; [exact Hvecs|]. simpl. intros j f [Hj Hf].
    now rewrite face_array_join.
Qed.

(** C3 (amended).  For a point set and a triangle set with indices in
    range, [vertexNormals] builds an adjacency list in which each vertex
    receives, per triangle, the two other indices of the triangle once for
    each slot of the triangle that references it (two entries per slot, so
    2k entries for a vertex incident to k triangles whose indices are
    distinct); the face-vector array is indexed by point, has one slot per
    point and holds at a point the raw cross product of the last triangle
    that references it; the adjacency entries, which are point indices,
    index into that array, and the result holds at each vertex the
    normalized sum of the face-vector entries at the vertex's adjacency
    entries. *)
Theorem vertexNormals_point_indexed :
  forall (verts : list Vec3) (ind : list Tri),
    all_in_range (length verts) ind ->
    exists adjacency faceVecs norms,
      buildAdjacency (length verts) ind = Ok adjacency
      /\ faceVectors verts ind = Ok faceVecs
      /\ vertexNormals verts ind = Ok norms
      /\ length adjacency = length verts
      /\ length faceVecs = length verts
      /\ length norms = length verts
      /\ forall v, v < length verts ->
           exists adj_v,
             adjacency !! v = Some adj_v
             /\ adj_v = flat_map (neighbours v) ind
             /\ length adj_v = 2 * slot_count v ind
             /\ (Forall distinct_indices ind ->
                 length adj_v = 2 * length (filter (incident v) ind))
             /\ faceVecs !! v = Some (face_cross verts <$> last_incident ind v)
             /\ exists vecs,
                  Forall2 (fun j f => faceVecs !! j = Some (Some f)) adj_v vecs
                  /\ norms !! v = Some (Some (vec3.normalize (vec3_sum vecs))).
Proof.
  intros verts ind Hr.
  destruct (vertexNormals_in_range verts ind Hr) as (norms & Hrun & Hlen & Hslots).
  exists (adjacency_of (length verts) ind),
         (face_array (face_cross verts) (length verts) ind), norms.
  split; [now apply buildAdjacency_in_range|].
  split; [now apply faceVectors_in_range|].
  split; [assumption|].
  split; [apply adjacency_of_length|].
  split; [apply face_array_length|].
  split; [assumption|].
  intros v Hv. exists (flat_map (neighbours v) ind).
  split; [now apply adjacency_of_lookup|].
  split; [reflexivity|].
  split; [apply length_adjacency_entries|].
  split.
  { intros Hd. rewrite length_adjacency_entries. now rewrite slot_count_distinct. }
  split; [now apply face_array_lookup|].
  destruct (Hslots v Hv) as (x & Hx & vecs & Hvecs & ->).
  exists vecs. split; [|assumption].
  eapply Forall2_impl; [exact Hvecs|]. simpl. intros j f [Hj Hf].
  rewrite face_array_lookup by assumption. unfold face_vector_at in Hf.
  now rewrite Hf.
Qed.

Lemma vertexNormals_point_indexed_witness :
  exists norms,
    vertexNormals [mkVec3 0 0 0; mkVec3 1 0 0; mkVec3 0 1 0; mkVec3 0 0 1]
                  [mkTri 0 1 2; mkTri 0 3 1] = Ok norms
    /\ length norms = 4%nat.
Proof.
  destruct (vertexNormals_point_indexed
              [mkVec3 0 0 0; mkVec3 1 0 0; mkVec3 0 1 0; mkVec3 0 0 1]
              [mkTri 0 1 2; mkTri 0 3 1])
    as (adjacency & faceVecs & norms & _ & _ & Hrun & _ & _ & Hlen & _).
  - repeat constructor.
  - exists norms. split; [exact Hrun | exact Hlen].
Defined.

(** C3 (as stated, refuted).  On four points and the single triangle
    (1,2,3) the face-vector array [vertexNormals] reads is indexed by point:
    it has four slots, a hole at point 0 and the cross product at points 1,
    2 and 3, where the slot-keyed array has three slots holding the cross
    product; [vertexNormals] returns, while reading the adjacency entries
    from the slot-keyed array throws.  And on the triangle (0,0,1) vertex 0,
    incident to one triangle, receives four adjacency entries. *)
Lemma vertexNormals_not_slot_indexed :
  let verts := [mkVec3 0 0 0; mkVec3 1 0 0; mkVec3 0 1 0; mkVec3 0 0 1] in
  let ind := [mkTri 1 2 3] in
  let n := face_cross verts (mkTri 1 2 3) in
  faceVectors verts ind = Ok [None; Some n; Some n; Some n]
  /\ faceVectorsBySlot verts ind = [n; n; n]
  /\ (exists norms, vertexNormals verts ind = Ok norms)
  /\ vertexNormalsBySlot verts ind = Throw TypeError
  /\ buildAdjacency 2 [mkTri 0 0 1] = Ok [[0; 1; 0; 1]; [0; 0]]
  /\ length (filter (incident 0) [mkTri 0 0 1]) = 1.
Proof.
  intros verts ind n.
  split.
  { unfold verts, ind. rewrite faceVectors_in_range by repeat constructor.
    reflexivity. }
  split; [reflexivity|].
  split.
  { destruct (vertexNormals_in_range verts ind) as (norms & Hrun & _).
    - unfold verts, ind. repeat constructor.
    - now exists norms. }
  split; [reflexivity|].
  split; reflexivity.
Qed.

(** C9 (amended).  When some triangle references an index that is not an
    index of the point set, [unwrapVectorArray], [faceNormals] and
    [vertexNormals] stop with the [TypeError] of reading a property of
    [undefined], and return no array; [unwrapArray] throws nothing: it
    returns an array that holds [undefined] where the index is out of
    range. *)
Theorem out_of_range_index_behaviour :
  forall (A : Type) (values : list A) (verts : list Vec3) (ind : list Tri),
    Exists (out_of_range (length verts)) ind ->
    Exists (out_of_range (length values)) ind ->
    unwrapVectorArray verts ind = Throw TypeError
    /\ faceNormals verts ind = Throw TypeError
    /\ vertexNormals verts ind = Throw TypeError
    /\ exists out, unwrapArray values ind = Ok out /\ None ∈ out.
Proof.
  intros A values verts ind Hv Ha.
  split; [now apply unwrapVectorArray_out_of_range|].
  split; [now apply faceNormals_out_of_range|].
  split; [now apply vertexNormals_out_of_range|].
  now apply unwrapArray_out_of_range.
Qed.

Lemma out_of_range_index_behaviour_witness :
  unwrapVectorArray [mkVec3 1 2 3] [mkTri 0 1 0] = Throw TypeError
  /\ faceNormals [mkVec3 1 2 3] [mkTri 0 1 0] = Throw TypeError
  /\ vertexNormals [mkVec3 1 2 3] [mkTri 0 1 0] = Throw TypeError
  /\ exists out, unwrapArray [7%nat] [mkTri 0 1 0] = Ok out /\ None ∈ out.
Proof.
  apply (out_of_range_index_behaviour nat [7%nat] [mkVec3 1 2 3] [mkTri 0 1 0]).
  - apply Exists_cons_hd. unfold out_of_range. simpl. lia.
  - apply Exists_cons_hd. unfold out_of_range. simpl. lia.
Defined.

(** C9 (as stated, refuted).  Over one value, the triangle (0,1,0)
    references index 1, the size of the array; [unwrapArray] raises no
    error and returns the array [7, undefined, 7], and what
    [unwrapVectorArray] raises on that triangle is the runtime's
    [TypeError]. *)
Lemma index_out_of_range_not_raised :
  Exists (out_of_range (length [7%nat])) [mkTri 0 1 0]
  /\ unwrapArray [7%nat] [mkTri 0 1 0] = Ok [Some 7%nat; None; Some 7%nat]
  /\ unwrapVectorArray [mkVec3 1 2 3] [mkTri 0 1 0] = Throw TypeError.
Proof.
  split; [|split; reflexivity].
  apply Exists_cons_hd. unfold out_of_range. simpl. lia.
Qed.

(** ** centerOfVolume, centerPointCloud *)

Local Open Scope R_scope.


(** ** getAabb *)

(** Whatever the points, [getAabb] computes the centre on each axis as the
    minimum plus half the maximum. *)
Lemma getAabb_center_formula (verts : list aabb.FPoint) :
  let b := aabb.getAabb verts in
  aabb.center b
  = aabb.mkXyz
      (PrimFloat.add (aabb.x (aabb.min b)) (PrimFloat.div (aabb.x (aabb.max b)) 2%float))
      (PrimFloat.add (aabb.y (aabb.min b)) (PrimFloat.div (aabb.y (aabb.max b)) 2%float))
      (PrimFloat.add (aabb.z (aabb.min b)) (PrimFloat.div (aabb.z (aabb.max b)) 2%float)).
Proof. reflexivity. Qed.

(** C1 (the code departs from it).  On the points (1,1,1) and (3,5,7),
    whose extrema [getAabb] finds as min = (1,1,1) and max = (3,5,7), the
    centre returned is (2.5, 3.5, 4.5), that is min + max / 2 on each axis,
    where the midpoint (min + max) / 2 is (2, 3, 4). *)
Theorem getAabb_center_is_not_midpoint :
  let b := aabb.getAabb [aabb.mkFPoint 1 1 1; aabb.mkFPoint 3 5 7]%float in
  aabb.min b = aabb.mkXyz 1 1 1
  /\ aabb.max b = aabb.mkXyz 3 5 7
  /\ aabb.center b = aabb.mkXyz 2.5 3.5 4.5
  /\ aabb.mkXyz (aabb.midpoint (aabb.x (aabb.min b)) (aabb.x (aabb.max b)))
                (aabb.midpoint (aabb.y (aabb.min b)) (aabb.y (aabb.max b)))
                (aabb.midpoint (aabb.z (aabb.min b)) (aabb.z (aabb.max b)))
     = aabb.mkXyz 2 3 4
  /\ PrimFloat.eqb (aabb.x (aabb.center b))
       (aabb.midpoint (aabb.x (aabb.min b)) (aabb.x (aabb.max b))) = false.
Proof. vm_compute. repeat split; reflexivity. Qed.

(** ** surfaceOrientation, angleRangeClamp *)


Lemma surfaceOrientation_loop (pre rest : list Vec3) (acc : list R) :
  for_each_num (fun regions i =>
    nx ← flat_map coords (pre ++ rest) !! i;
    ny ← flat_map coords (pre ++ rest) !! (i + 1)%nat;
    let or := vec2.normalize (vec2.fromValues nx ny) in
    let theta := angleRangeClamp (Math.atan2 (v1 or) (v0 or)) in
    let region := Math.floor (theta / (2 * Math.PI / 8)) in
    let region := region / (8 - 1) in
    Some (regions ++ [region]))
  (map (fun k => (3 * k)%nat) (seq (length pre) (length rest))) acc
  = Some (acc ++ map orientation_scalar rest).
Proof.
  revert pre acc. induction rest as [|n rest IH]; intros pre acc.
  - simpl. now rewrite app_nil_r.
  - cbn [length seq map for_each_num].
    pose proof (lookup_flat_map_chunk coords 3 pre n rest 0) as L0.
    pose proof (lookup_flat_map_chunk coords 3 pre n rest 1) as L1.
    rewrite Nat.add_0_r in L0.
    rewrite L0, L1 by (reflexivity || lia). simpl.
    replace (pre ++ n :: rest) with ((pre ++ [n]) ++ rest)
      by now rewrite <- app_assoc.
    replace (S (length pre)) with (length (pre ++ [n]))
      by (rewrite length_app; simpl; lia).
    rewrite IH. rewrite <- app_assoc. simpl.
    do 3 f_equal. unfold orientation_scalar, orientation_bin, azimuth.
    unfold Math.floor, Math.PI. f_equal. lra.
Qed.

Lemma surfaceOrientation_normals (ns : list Vec3) :
  surfaceOrientation (flat_map coords ns) = Some (map orientation_scalar ns).
Proof.
  unfold surfaceOrientation. cbv zeta.
  rewrite (length_flat_map_chunks coords 3) by reflexivity.
  rewrite range_step_whole by lia.
  apply (surfaceOrientation_loop [] ns []).
Qed.

(** ** surfaceVariation, clampTrace *)

Lemma clampTrace_Rmin (e : R) : clampTrace e = Rmin e 1000.
Proof.
  unfold clampTrace, Rmin.
  destruct (Rgt_dec e 1000), (Rle_dec e 1000); lra.
Qed.

Lemma ext_update_Fin (m e : R) : ext_update (Fin m) e = Fin (Rmax m e).
Proof.
  unfold ext_update, gt_ext, Rmax.
  destruct (Rgt_dec e m), (Rle_dec m e); try reflexivity; f_equal; lra.
Qed.

Lemma MaxRlist_cons (a : R) (l : list R) :
  l <> [] -> MaxRlist (a :: l) = Rmax a (MaxRlist l).
Proof. destruct l; [congruence | reflexivity]. Qed.

Lemma fold_Rmax_MaxRlist (l : list R) (a : R) :
  fold_left Rmax l a = MaxRlist (a :: l).
Proof.
  revert a. induction l as [|b l IH]; intros a; [reflexivity|].
  cbn [fold_left]. rewrite IH.
  rewrite (MaxRlist_cons a (b :: l)) by discriminate.
  destruct l as [|c l]; [reflexivity|].
  rewrite (MaxRlist_cons (Rmax a b) (c :: l)) by discriminate.
  rewrite (MaxRlist_cons b (c :: l)) by discriminate.
  now rewrite Rmax_assoc.
Qed.

Lemma fold_ext_update_Fin (l : list R) (m : R) :
  fold_left ext_update l (Fin m) = Fin (fold_left Rmax l m).
Proof.
  revert m. induction l as [|e l IH]; intros m; [reflexivity|].
  cbn [fold_left]. now rewrite ext_update_Fin, IH.
Qed.

Lemma fold_ext_update_largest (e : R) (l : list R) :
  fold_left ext_update (e :: l) NEGATIVE_INFINITY = Fin (MaxRlist (e :: l)).
Proof.
  cbn [fold_left]. unfold ext_update at 2. simpl.
  now rewrite fold_ext_update_Fin, fold_Rmax_MaxRlist.
Qed.

Lemma surfaceVariation_variation_step (verts vNorms : list R) :
  surfaceVariation verts vNorms
  = (st ← for_each_num (variation_step verts vNorms)
            (range_step (length verts) 0 (length verts) 9)
            (mkVariation NEGATIVE_INFINITY POSITIVE_INFINITY []);
     Some (map (fun s => contrast (div_ext s (largest st))) (scalars st))).
Proof. reflexivity. Qed.

Lemma flat9_lookups (pre : list Triangle3) (p0 p1 p2 : Vec3)
    (rest : list Triangle3) (i : nat) :
  i = (9 * length pre)%nat ->
  let l := flat_map flat9 (pre ++ (p0, p1, p2) :: rest) in
  l !! i = Some (c0 p0) /\ l !! (i + 1)%nat = Some (c1 p0)
  /\ l !! (i + 2)%nat = Some (c2 p0) /\ l !! (i + 3)%nat = Some (c0 p1)
  /\ l !! (i + 4)%nat = Some (c1 p1) /\ l !! (i + 5)%nat = Some (c2 p1)
  /\ l !! (i + 6)%nat = Some (c0 p2) /\ l !! (i + 7)%nat = Some (c1 p2)
  /\ l !! (i + 8)%nat = Some (c2 p2).
Proof.
  intros -> l. unfold l.
  assert (Hw : forall t : Triangle3, length (flat9 t) = 9%nat)
    by (intros [[? ?] ?]; reflexivity).
  pose proof (lookup_flat_map_chunk flat9 9 pre (p0, p1, p2) rest 0 Hw) as L0.
  rewrite Nat.add_0_r in L0.
  repeat split;
    try (etransitivity; [apply L0; lia | reflexivity]);
    (etransitivity;
     [ apply (lookup_flat_map_chunk flat9 9 pre (p0, p1, p2) rest _ Hw); lia
     | reflexivity ]).
Qed.

Lemma variation_step_triangle (pre_t pre_n rest_t rest_n : list Triangle3)
    (t n : Triangle3) (st : variation_state) :
  length pre_t = length pre_n ->
  exists sm,
    variation_step (flat_map flat9 (pre_t ++ t :: rest_t))
                   (flat_map flat9 (pre_n ++ n :: rest_n))
                   st (9 * length pre_t)
    = Some (mkVariation (ext_update (largest st) (clamped_energy t n)) sm
              (scalars st ++ [clamped_energy t n; clamped_energy t n;
                              clamped_energy t n])).
Proof.
  intros Hlen. destruct t as [[p0 p1] p2], n as [[n0 n1] n2].
  destruct (flat9_lookups pre_t p0 p1 p2 rest_t (9 * length pre_t) eq_refl)
    as (A0 & A1 & A2 & A3 & A4 & A5 & A6 & A7 & A8).
  destruct (flat9_lookups pre_n n0 n1 n2 rest_n (9 * length pre_t))
    as (B0 & B1 & B2 & B3 & B4 & B5 & B6 & B7 & B8); [now rewrite Hlen|].
  unfold variation_step.
  rewrite A0, A1, A2, A3, A4, A5, A6, A7, A8. cbn [mbind option_bind].
  rewrite B0, B1, B2, B3, B4, B5, B6, B7, B8. cbn [mbind option_bind].
  cbv zeta. rewrite clampTrace_Rmin.
  change (Rmin _ 1000) with (clamped_energy (p0, p1, p2) (n0, n1, n2)).
  unfold ext_update.
  destruct (gt_ext _ (largest st)); [eexists; reflexivity|].
  destruct (lt_ext _ (smallest st)); eexists; reflexivity.
Qed.

Lemma surfaceVariation_loop (rest_t rest_n pre_t pre_n : list Triangle3)
    (st : variation_state) :
  length pre_t = length pre_n ->
  length rest_t = length rest_n ->
  exists st',
    for_each_num (variation_step (flat_map flat9 (pre_t ++ rest_t))
                                 (flat_map flat9 (pre_n ++ rest_n)))
      (map (fun k => (9 * k)%nat) (seq (length pre_t) (length rest_t))) st
    = Some st'
    /\ largest st'
       = fold_left ext_update (zip_with clamped_energy rest_t rest_n) (largest st)
    /\ scalars st'
       = scalars st
         ++ flat_map (fun e => [e; e; e]) (zip_with clamped_energy rest_t rest_n).
Proof.
  revert rest_n pre_t pre_n st.
  induction rest_t as [|t rest_t IH]; intros rest_n pre_t pre_n st Hpre Hrest.
  - exists st. simpl. now rewrite app_nil_r.
  - destruct rest_n as [|n rest_n]; [discriminate|].
    cbn [length seq map for_each_num].
    destruct (variation_step_triangle pre_t pre_n rest_t rest_n t n st Hpre)
      as [sm Hstep].
    rewrite Hstep. cbn [mbind option_bind].
    replace (pre_t ++ t :: rest_t) with ((pre_t ++ [t]) ++ rest_t)
      by now rewrite <- app_assoc.
    replace (pre_n ++ n :: rest_n) with ((pre_n ++ [n]) ++ rest_n)
      by now rewrite <- app_assoc.
    replace (S (length pre_t)) with (length (pre_t ++ [t]))
      by (rewrite length_app; simpl; lia).
    destruct (IH rest_n (pre_t ++ [t]) (pre_n ++ [n])
                (mkVariation (ext_update (largest st) (clamped_energy t n)) sm
                   (scalars st ++ [clamped_energy t n; clamped_energy t n;
                                   clamped_energy t n])))
      as (st' & Hrun & Hlargest & Hscalars).
    + rewrite !length_app. simpl. lia.
    + simpl in Hrest. lia.
    + exists st'. split; [exact Hrun|]. split.
      * rewrite Hlargest. reflexivity.
      * rewrite Hscalars. simpl. now rewrite <- app_assoc.
Qed.

Lemma map_triples {A B : Type} (f : A -> B) (l : list A) :
  map f (flat_map (fun e => [e; e; e]) l)
  = flat_map (fun e => [f e; f e; f e]) l.
Proof.
  induction l as [|x l IH]; [reflexivity|].
  cbn [flat_map app map]. now rewrite IH.
Qed.

Lemma surfaceVariation_triangles (tris nrms : list Triangle3) :
  length tris = length nrms ->
  surfaceVariation (flat_map flat9 tris) (flat_map flat9 nrms)
  = Some (variation_scalars tris nrms).
Proof.
  intros Hlen. rewrite surfaceVariation_variation_step.
  assert (Hw : forall t : Triangle3, length (flat9 t) = 9%nat)
    by (intros [[? ?] ?]; reflexivity).
  rewrite (length_flat_map_chunks flat9 9) by assumption.
  rewrite range_step_whole by lia.
  destruct (surfaceVariation_loop tris nrms [] []
              (mkVariation NEGATIVE_INFINITY POSITIVE_INFINITY []) eq_refl Hlen)
    as (st' & Hrun & Hlargest & Hscalars).
  cbn [app length] in Hrun. rewrite Hrun. cbn [mbind option_bind].
  rewrite Hscalars, Hlargest. cbn [largest scalars app]. f_equal.
  unfold variation_scalars.
  destruct (zip_with clamped_energy tris nrms) as [|e es] eqn:E; [reflexivity|].
  rewrite fold_ext_update_largest. cbv zeta.
  apply map_triples.
Qed.

Lemma mat2_invert_left (a : Mat2) :
  mat2.determinant a <> 0 ->
  mat2.multiply (mat2.invert a) a = mkMat2 1 0 0 1.
Proof.
  intros Hdet. unfold mat2.multiply, mat2.invert. cbn [m0 m1 m2 m3].
  unfold mat2.determinant in *. f_equal; field; assumption.
Qed.

(** ** Lengths *)

Lemma unwrapped_points_triangles (T : nat) (pts : list Vec3) :
  length pts = (3 * T)%nat ->
  exists tris : list Triangle3,
    length tris = T /\ flat_map coords pts = flat_map flat9 tris.
Proof.
  revert pts. induction T as [|T IH]; intros pts Hlen.
  - destruct pts; [|discriminate]. now exists [].
  - destruct pts as [|p0 [|p1 [|p2 pts]]]; try (simpl in Hlen; lia).
    destruct (IH pts) as (tris & Htris & Hflat); [simpl in Hlen; lia|].
    exists ((p0, p1, p2) :: tris). split; [simpl; lia|].
    cbn [flat_map flat9]. rewrite Hflat. now rewrite <- !app_assoc.
Qed.

Lemma length_variation_scalars (tris nrms : list Triangle3) :
  length tris = length nrms ->
  length (variation_scalars tris nrms) = (3 * length tris)%nat.
Proof.
  intros Hlen. unfold variation_scalars. cbv zeta.
  rewrite (length_flat_map_chunks _ 3) by reflexivity.
  rewrite length_zip_with. lia.
Qed.

(** C8.  The unwrapped scalar array has three entries per triangle; for
    indices in range, the arrays returned by [faceNormals] and
    [vertexNormals] have one slot per point; and on unwrapped arrays of
    points and normals, three per triangle, [surfaceVariation] and
    [surfaceOrientation] return one scalar per unwrapped vertex slot, as
    many as their unwrapped input has points, three per triangle (the flat
    array of coordinates they receive is three times as long). *)
Theorem array_lengths :
  forall (A : Type) (values : list A) (verts : list Vec3) (ind : list Tri)
         (upoints unormals : list Vec3) (T : nat),
    all_in_range (length verts) ind ->
    length upoints = (3 * T)%nat ->
    length unormals = (3 * T)%nat ->
    (exists out, unwrapArray values ind = Ok out
                 /\ length out = (3 * length ind)%nat)
    /\ (exists out, unwrapVectorArray verts ind = Ok out
                    /\ length out = (3 * (3 * length ind))%nat)
    /\ (exists norms, faceNormals verts ind = Ok norms
                      /\ length norms = length verts)
    /\ (exists norms, vertexNormals verts ind = Ok norms
                      /\ length norms = length verts)
    /\ (exists out, surfaceVariation (flat_map coords upoints)
                                     (flat_map coords unormals) = Some out
                    /\ length out = length upoints
                    /\ length out = (3 * T)%nat
                    /\ length (flat_map coords upoints) = (3 * length out)%nat)
    /\ (exists out, surfaceOrientation (flat_map coords unormals) = Some out
                    /\ length out = length unormals
                    /\ length out = (3 * T)%nat
                    /\ length (flat_map coords unormals) = (3 * length out)%nat).
Proof.
  intros A values verts ind upoints unormals T Hr Hp Hn.
  split.
  { eexists. split; [apply unwrapArray_lookups|].
    now rewrite (length_flat_map_chunks _ 3) by reflexivity. }
  split.
  { eexists. split; [now apply unwrapVectorArray_in_range|].
    rewrite (length_flat_map_chunks coords 3) by reflexivity.
    unfold unwrapped. now rewrite (length_flat_map_chunks _ 3) by reflexivity. }
  split.
  { eexists. split; [now apply faceNormals_in_range|]. apply face_array_length. }
  split.
  { destruct (vertexNormals_in_range verts ind Hr) as (norms & Hrun & Hlen & _).
    now exists norms. }
  split.
  { destruct (unwrapped_points_triangles T upoints Hp) as (tris & Ht & Hflat).
    destruct (unwrapped_points_triangles T unormals Hn) as (nrms & Hm & ->).
    rewrite (length_flat_map_chunks coords 3) by reflexivity.
    rewrite Hflat.
    eexists. split; [apply surfaceVariation_triangles; congruence|].
    rewrite length_variation_scalars by congruence. rewrite Ht, Hp.
    repeat split; lia. }
  { rewrite (length_flat_map_chunks coords 3) by reflexivity.
    eexists. split; [apply surfaceOrientation_normals|].
    rewrite length_map. repeat split; lia. }
Qed.

Lemma array_lengths_witness :
  (exists out, unwrapArray [5%nat; 6%nat; 7%nat] [mkTri 0 1 2] = Ok out
               /\ length out = 3%nat)
  /\ (exists norms,
        faceNormals [mkVec3 0 0 0; mkVec3 1 0 0; mkVec3 0 1 0] [mkTri 0 1 2]
        = Ok norms /\ length norms = 3%nat)
  /\ (exists out,
        surfaceOrientation
          (flat_map coords [mkVec3 0 0 1; mkVec3 1 0 1; mkVec3 0 1 1]) = Some out
        /\ length out = 3%nat).
Proof.
  destruct (array_lengths nat [5%nat; 6%nat; 7%nat]
              [mkVec3 0 0 0; mkVec3 1 0 0; mkVec3 0 1 0] [mkTri 0 1 2]
              [mkVec3 0 0 0; mkVec3 1 0 0; mkVec3 0 1 0]
              [mkVec3 0 0 1; mkVec3 1 0 1; mkVec3 0 1 1] 1)
    as (H1 & _ & H3 & _ & _ & (out & Hout & Hlen & _ & _)).
  - repeat constructor.
  - reflexivity.
  - reflexivity.
  - split; [exact H1|]. split; [exact H3|]. now exists out.
Defined.

(** ** The worked examples of the specification *)

Example getAabb_two_points :
  let b := aabb.getAabb [aabb.mkFPoint 0 0 0; aabb.mkFPoint 2 4 6]%float in
  aabb.min b = aabb.mkXyz 0 0 0
  /\ aabb.max b = aabb.mkXyz 2 4 6
  /\ aabb.length b = PrimFloat.sqrt 56.
Proof. vm_compute. repeat split; reflexivity. Qed.

Example face_normal_right_hand_rule :
  face_normal [mkVec3 0 0 0; mkVec3 1 0 0; mkVec3 0 1 0] (mkTri 0 1 2)
  = mkVec3 0 0 1.
Proof.
  assert (Hc : face_cross [mkVec3 0 0 0; mkVec3 1 0 0; mkVec3 0 1 0] (mkTri 0 1 2)
               = mkVec3 0 0 1).
  { unfold face_cross, at_index, vec3_sub, vec3.cross. simpl. f_equal; ring. }
  unfold face_normal. rewrite Hc. unfold vec3.normalize, vec3.dot. cbn [c0 c1 c2].
  replace (0 * 0 + 0 * 0 + 1 * 1) with 1 by ring.
  rewrite sqrt_1. f_equal; field.
Qed.

Example faceNormals_single_triangle :
  faceNormals [mkVec3 0 0 0; mkVec3 1 0 0; mkVec3 0 1 0] [mkTri 0 1 2]
  = Ok [Some (mkVec3 0 0 1); Some (mkVec3 0 0 1); Some (mkVec3 0 0 1)].
Proof.
  rewrite faceNormals_in_range by repeat constructor.
  change (face_array _ _ _)
    with (let n := face_normal [mkVec3 0 0 0; mkVec3 1 0 0; mkVec3 0 1 0]
                     (mkTri 0 1 2) in [Some n; Some n; Some n]).
  cbv zeta. now rewrite face_normal_right_hand_rule.
Qed.

(** A non-degenerate triangle whose three normals are equal has zero
    energy. *)
Example energy_of_flat_triangle (pts : Triangle3) (n : Vec3) :
  nondegenerate pts -> energy pts (n, n, n) = 0.
Proof.
  intros _. destruct pts as [[p0 p1] p2].
  unfold energy, gram, vec3_sub, trace, mat2.multiply, vec3.dot.
  cbn [m0 m1 m2 m3 c0 c1 c2]. ring.
Qed.

(** The normal (0,-1,0) has azimuth 3 PI / 2 and falls in bin 6. *)
Example orientation_bin_negative_y : orientation_bin (mkVec3 0 (-1) 0) = 6%Z.
Proof.
  pose proof PI_RGT_0 as Hpi.
  assert (Haz : azimuth (mkVec3 0 (-1) 0) = 3 * PI / 2).
  { unfold azimuth, vec2.normalize, vec2.fromValues. cbn [c0 c1 v0 v1].
    replace (0 * 0 + -1 * -1) with 1 by ring. rewrite sqrt_1.
    replace (-1 / 1) with (-1) by field. replace (0 / 1) with 0 by field.
    unfold Math.atan2.
    destruct (Rlt_dec 0 0) as [H|_]; [lra|].
    destruct (Rlt_dec 0 (-1)) as [H|_]; [lra|].
    destruct (Rlt_dec (-1) 0) as [_|H]; [|lra].
    unfold angleRangeClamp, Math.PI.
    destruct (Rgt_dec (- (PI / 2)) (PI * 2)) as [H|_]; [lra|].
    destruct (Rlt_dec (- (PI / 2)) 0) as [_|H]; [|lra].
    field. }
  unfold orientation_bin. rewrite Haz. apply Zfloor_eq.
  replace (3 * PI / 2 / (2 * PI / 8)) with 6 by (field; lra). lra.
Qed.

(** * Further properties *)

(** ** Centering is a translation *)

Lemma centerPointCloud_translate (points : list Vec3) :
  centerPointCloud points = translate (centerOfVolume points) points.
Proof. reflexivity. Qed.

Lemma translate_length c points : length (translate c points) = length points.
Proof. unfold translate. apply length_map. Qed.

Lemma all_in_range_dec n ind :
  all_in_range n ind \/ Exists (out_of_range n) ind.
Proof.
  induction ind as [|t ind [IH|IH]].
  - left. constructor.
  - destruct (decide (tri_in_range n t)) as [Ht|Ht].
    + left. now constructor.
    + right. apply Exists_cons_hd. unfold tri_in_range, out_of_range in *. lia.
  - right. now apply Exists_cons_tl.
Qed.

Lemma faceVectors_out_of_range (verts : list Vec3) (ind : list Tri) :
  Exists (out_of_range (length verts)) ind ->
  faceVectors verts ind = Throw TypeError.
Proof.
  intros Hex. rewrite faceVectors_face_step.
  apply (for_each_throws _ (fun _ => True) (out_of_range (length verts)));
    [|trivial|trivial|assumption].
  intros norms t _. apply face_step_out_of_range.
Qed.

(** ** Face normals and face vectors *)

Lemma face_array_fmap (g : Vec3 -> Vec3) (f : Tri -> Vec3) n ind :
  face_array (fun t => g (f t)) n ind = map (fmap g) (face_array f n ind).
Proof.
  unfold face_array. rewrite map_map. apply map_ext. intros v.
  now destruct (last_incident ind v).
Qed.

(** X3.  [faceNormals] is [faceVectors] followed by a normalization of
    every stored vector: when [faceVectors] returns an array, [faceNormals]
    returns the array with the same holes and each vector normalized, and
    when one throws so does the other. *)
Theorem faceNormals_normalizes_faceVectors :
  forall (verts : list Vec3) (ind : list Tri),
    match faceVectors verts ind with
    | Ok vecs => faceNormals verts ind = Ok (map (fmap vec3.normalize) vecs)
    | Throw e => faceNormals verts ind = Throw e
    end.
Proof.
  intros verts ind.
  destruct (all_in_range_dec (length verts) ind) as [Hr|Hex].
  - rewrite (faceVectors_in_range verts ind Hr), (faceNormals_in_range verts ind Hr).
    f_equal. apply (face_array_fmap vec3.normalize (face_cross verts)).
  - rewrite (faceVectors_out_of_range verts ind Hex).
    now apply faceNormals_out_of_range.
Qed.

Lemma dot_self_nonneg (a : Vec3) : 0 <= vec3.dot a a.
Proof. unfold vec3.dot. nra. Qed.

Lemma dot_self_pos (a : Vec3) : a <> origin -> 0 < vec3.dot a a.
Proof.
  intros Hne. destruct (dot_self_nonneg a) as [H|H]; [assumption|].
  exfalso. apply Hne. destruct a as [x y z]. unfold vec3.dot in H.
  cbn [c0 c1 c2] in H. unfold origin.
  assert (x = 0) by nra. assert (y = 0) by nra. assert (z = 0) by nra.
  now subst.
Qed.






Lemma incident_flip v t : incident v (flip t) <-> incident v t.
Proof. unfold incident, flip. simpl. tauto. Qed.

Lemma last_incident_flip ind v :
  last_incident (map flip ind) v = flip <$> last_incident ind v.
Proof.
  induction ind as [|t pre IH] using rev_ind; [reflexivity|].
  rewrite map_app. cbn [map]. rewrite !last_incident_snoc, IH.
  destruct (decide (incident v (flip t))) as [H|H],
           (decide (incident v t)) as [H'|H']; try reflexivity;
    exfalso; apply incident_flip in H || apply incident_flip in H'; tauto.
Qed.

Lemma face_cross_flip verts t :
  face_cross verts (flip t) = vec3_opp (face_cross verts t).
Proof.
  unfold face_cross, flip, vec3.cross, vec3_sub, vec3_opp. cbn [i0 i1 i2 c0 c1 c2].
  f_equal; ring.
Qed.

Lemma normalize_opp (a : Vec3) :
  vec3.normalize (vec3_opp a) = vec3_opp (vec3.normalize a).
Proof.
  unfold vec3.normalize. cbv zeta.
  replace (vec3.dot (vec3_opp a) (vec3_opp a)) with (vec3.dot a a)
    by (unfold vec3.dot, vec3_opp; cbn [c0 c1 c2]; ring).
  unfold vec3_opp. cbn [c0 c1 c2]. unfold Rdiv. f_equal; ring.
Qed.

Lemma all_in_range_flip n ind :
  all_in_range n (map flip ind) <-> all_in_range n ind.
Proof.
  unfold all_in_range. rewrite Forall_fmap. apply Forall_iff.
  intros t. unfold tri_in_range, flip. simpl. tauto.
Qed.

Lemma out_of_range_flip n ind :
  Exists (out_of_range n) ind -> Exists (out_of_range n) (map flip ind).
Proof.
  intros H. apply Exists_fmap. eapply Exists_impl; [exact H|].
  intros t. unfold out_of_range, flip. simpl. tauto.
Qed.

Lemma face_array_flip (f g : Tri -> Vec3) (h : Vec3 -> Vec3) n ind :
  (forall t, f (flip t) = h (g t)) ->
  face_array f n (map flip ind) = map (fmap h) (face_array g n ind).
Proof.
  intros Hf. unfold face_array. rewrite map_map. apply map_ext. intros v.
  rewrite last_incident_flip. destruct (last_incident ind v) as [t|]; [|reflexivity].
  simpl. now rewrite Hf.
Qed.

(** X5.  Winding order decides the side a normal points to: exchanging the
    second and third index of every triangle turns every vector stored by
    [faceVectors], and every normal stored by [faceNormals], into its
    opposite, and leaves the holes and the exceptions as they were. *)
Theorem flipped_winding_opposite_normals :
  forall (verts : list Vec3) (ind : list Tri),
    match faceVectors verts ind with
    | Ok vecs => faceVectors verts (map flip ind) = Ok (map (fmap vec3_opp) vecs)
    | Throw e => faceVectors verts (map flip ind) = Throw e
    end
    /\ match faceNormals verts ind with
       | Ok norms => faceNormals verts (map flip ind) = Ok (map (fmap vec3_opp) norms)
       | Throw e => faceNormals verts (map flip ind) = Throw e
       end.
Proof.
  intros verts ind.
  destruct (all_in_range_dec (length verts) ind) as [Hr|Hex].
  - pose proof (proj2 (all_in_range_flip (length verts) ind) Hr) as Hr'.
    rewrite (faceVectors_in_range verts ind Hr), (faceNormals_in_range verts ind Hr).
    rewrite (faceVectors_in_range _ _ Hr'), (faceNormals_in_range _ _ Hr').
    split; f_equal; apply face_array_flip; intros t.
    + apply face_cross_flip.
    + unfold face_normal. now rewrite face_cross_flip, normalize_opp.
  - pose proof (out_of_range_flip _ _ Hex) as Hex'.
    rewrite (faceVectors_out_of_range verts ind Hex).
    rewrite (faceNormals_out_of_range verts ind Hex).
    split; [now apply faceVectors_out_of_range | now apply faceNormals_out_of_range].
Qed.

(** ** Vertex normals *)

Lemma vec3_normalize_scale (s : R) (a : Vec3) :
  0 < s -> vec3.normalize (vec3_scale s a) = vec3.normalize a.
Proof.
  intros Hs. destruct (dot_self_nonneg a) as [Hpos|Hzero].
  - unfold vec3.normalize. cbv zeta.
    replace (vec3.dot (vec3_scale s a) (vec3_scale s a))
      with (s * s * vec3.dot a a)
      by (unfold vec3.dot, vec3_scale; cbn [c0 c1 c2]; ring).
    rewrite sqrt_mult by (nra || apply dot_self_nonneg).
    rewrite sqrt_square by lra.
    pose proof (sqrt_lt_R0 _ Hpos) as Hq.
    unfold vec3_scale. cbn [c0 c1 c2]. f_equal; field; split; lra.
  - assert (Ha : a = origin).
    { destruct a as [x y z]. unfold vec3.dot in Hzero. cbn [c0 c1 c2] in Hzero.
      unfold origin. assert (x = 0) by nra. assert (y = 0) by nra.
      assert (z = 0) by nra. now subst. }
    subst a. unfold vec3_scale, origin. cbn [c0 c1 c2]. now rewrite Rmult_0_r.
Qed.

Lemma vec3_sum_twice (a : Vec3) : vec3_sum [a; a] = vec3_scale 2 a.
Proof.
  unfold vec3_sum, vec3.add, vec3.fromValues, vec3_scale. cbn [foldl c0 c1 c2].
  f_equal; ring.
Qed.

Lemma last_incident_singleton t v :
  incident v t -> last_incident [t] v = Some t.
Proof.
  intros Hi. change [t] with ([] ++ [t]). rewrite last_incident_snoc.
  now rewrite decide_True.
Qed.

Lemma Forall2_pair_inv {A B : Type} (P : A -> B -> Prop) (a1 a2 : A) (l : list B) :
  Forall2 P [a1; a2] l -> exists b1 b2, l = [b1; b2] /\ P a1 b1 /\ P a2 b2.
Proof.
  intros H. inversion H as [|? b1 ? l1 H1 H']; subst.
  inversion H' as [|? b2 ? l2 H2 H'']; subst.
  inversion H''; subst. now exists b1, b2.
Qed.

Lemma single_triangle_vertex (verts : list Vec3) (t : Tri) (v j1 j2 : nat) (x : Vec3) :
  incident j1 t -> incident j2 t ->
  flat_map (neighbours v) [t] = [j1; j2] ->
  (exists vecs,
     Forall2 (fun j f => (j < length verts)%nat
                         /\ face_vector_at verts [t] j = Some f)
             (flat_map (neighbours v) [t]) vecs
     /\ x = vec3.normalize (vec3_sum vecs)) ->
  x = face_normal verts t.
Proof.
  intros H1 H2 Hadj (vecs & Hvecs & ->).
  rewrite Hadj in Hvecs.
  apply Forall2_pair_inv in Hvecs as (b1 & b2 & -> & [_ Hb1] & [_ Hb2]).
  unfold face_vector_at in Hb1, Hb2.
  rewrite last_incident_singleton in Hb1, Hb2 by assumption.
  simpl in Hb1, Hb2. injection Hb1 as <-. injection Hb2 as <-.
  rewrite vec3_sum_twice.
  unfold face_normal. apply vec3_normalize_scale. lra.
Qed.

(** X6.  On a mesh made of one triangle with three distinct indices in
    range, [vertexNormals] gives each of the three vertices the face normal
    of the triangle: the two adjacency entries of a vertex both select the
    triangle's raw vector, and their sum normalizes to the face normal. *)
Theorem vertexNormals_single_triangle :
  forall (verts : list Vec3) (t : Tri),
    tri_in_range (length verts) t ->
    distinct_indices t ->
    exists norms,
      vertexNormals verts [t] = Ok norms
      /\ norms !! i0 t = Some (Some (face_normal verts t))
      /\ norms !! i1 t = Some (Some (face_normal verts t))
      /\ norms !! i2 t = Some (Some (face_normal verts t)).
Proof.
  intros verts t Hr (N01 & N02 & N12).
  assert (Hall : all_in_range (length verts) [t]) by (repeat constructor; apply Hr).
  destruct (vertexNormals_in_range verts [t] Hall) as (norms & Hrun & _ & Hslots).
  exists norms. split; [assumption|].
  pose proof Hr as (H0 & H1 & H2).
  destruct (Hslots (i0 t) H0) as (x0 & Hx0 & Hv0).
  destruct (Hslots (i1 t) H1) as (x1 & Hx1 & Hv1).
  destruct (Hslots (i2 t) H2) as (x2 & Hx2 & Hv2).
  rewrite Hx0, Hx1, Hx2.
  split; [|split]; do 2 f_equal.
  - apply (single_triangle_vertex verts t (i0 t) (i1 t) (i2 t));
      [unfold incident; auto | unfold incident; auto | | assumption].
    cbn [flat_map]. unfold neighbours. rewrite app_nil_r.
    rewrite decide_True, decide_False, decide_False by congruence. reflexivity.
  - apply (single_triangle_vertex verts t (i1 t) (i0 t) (i2 t));
      [unfold incident; auto | unfold incident; auto | | assumption].
    cbn [flat_map]. unfold neighbours. rewrite app_nil_r.
    rewrite decide_False, decide_True, decide_False by congruence. reflexivity.
  - apply (single_triangle_vertex verts t (i2 t) (i0 t) (i1 t));
      [unfold incident; auto | unfold incident; auto | | assumption].
    cbn [flat_map]. unfold neighbours. rewrite app_nil_r.
    rewrite decide_False, decide_False, decide_True by congruence. reflexivity.
Qed.

Lemma vertexNormals_single_triangle_witness :
  exists norms,
    vertexNormals [mkVec3 0 0 0; mkVec3 1 0 0; mkVec3 0 1 0] [mkTri 0 1 2] = Ok norms
    /\ norms !! 0%nat
       = Some (Some (face_normal [mkVec3 0 0 0; mkVec3 1 0 0; mkVec3 0 1 0]
                                 (mkTri 0 1 2))).
Proof.
  destruct (vertexNormals_single_triangle
              [mkVec3 0 0 0; mkVec3 1 0 0; mkVec3 0 1 0] (mkTri 0 1 2))
    as (norms & Hrun & H0 & _).
  - unfold tri_in_range. simpl. lia.
  - unfold distinct_indices. simpl. lia.
  - exists norms. split; [exact Hrun | exact H0].
Defined.

(** ** The adjacency list *)

Lemma neighbours_symmetric v j t : j ∈ neighbours v t -> v ∈ neighbours j t.
Proof.
  destruct t as [a b c]. unfold neighbours. cbn [i0 i1 i2].
  rewrite !elem_of_app.
  destruct (decide (v = a)) as [Ea|Na], (decide (v = b)) as [Eb|Nb],
           (decide (v = c)) as [Ec|Nc];
    rewrite ?elem_of_cons, ?elem_of_nil; intros H;
    repeat match goal with
           | H : _ \/ _ |- _ => destruct H
           | H : False |- _ => destruct H
           end;
    subst; split_decide; rewrite ?elem_of_cons; tauto.
Qed.

Lemma elem_of_adjacency_entries v j ind :
  j ∈ flat_map (neighbours v) ind <-> exists t, t ∈ ind /\ j ∈ neighbours v t.
Proof.
  rewrite list_elem_of_In, in_flat_map. split.
  - intros (t & Ht & Hj). exists t. now rewrite !list_elem_of_In.
  - intros (t & Ht & Hj). exists t. now rewrite <- !list_elem_of_In.
Qed.

Lemma count_index (a n : nat) :
  (a < n)%nat ->
  sum_list (map (fun v => if decide (v = a) then 1%nat else 0%nat) (seq 0 n)) = 1%nat.
Proof.
  induction n as [|n IH]; intros Ha; [lia|].
  rewrite seq_S, map_app, sum_list_with_app. cbn [map sum_list_with Nat.add].
  destruct (decide (n = a)) as [->|Hne].
  - clear IH Ha.
    assert (H : forall m, (m <= a)%nat ->
              sum_list (map (fun v => if decide (v = a) then 1%nat else 0%nat)
                            (seq 0 m)) = 0%nat).
    { induction m as [|m IHm]; intros Hm; [reflexivity|].
      rewrite seq_S, map_app, sum_list_with_app. cbn [map sum_list_with Nat.add].
      rewrite IHm by lia. rewrite decide_False by lia. reflexivity. }
    rewrite H by lia. reflexivity.
  - rewrite IH by lia. simpl. lia.
Qed.

Lemma sum_list_map_add {A : Type} (f g : A -> nat) (l : list A) :
  sum_list (map (fun v => (f v + g v)%nat) l)
  = (sum_list (map f l) + sum_list (map g l))%nat.
Proof. induction l as [|a l IH]; simpl; [reflexivity|]. rewrite IH. lia. Qed.

Lemma neighbours_total n t :
  tri_in_range n t ->
  sum_list (map (fun v => length (neighbours v t)) (seq 0 n)) = 6%nat.
Proof.
  intros (H0 & H1 & H2).
  rewrite (map_ext _ (fun v =>
     ((if decide (v = i0 t) then 1 else 0) * 2
      + ((if decide (v = i1 t) then 1 else 0) * 2
         + (if decide (v = i2 t) then 1 else 0) * 2))%nat)).
  - rewrite !sum_list_map_add.
    assert (Hd : forall a, (a < n)%nat ->
              sum_list (map (fun v => ((if decide (v = a) then 1 else 0) * 2)%nat)
                            (seq 0 n)) = 2%nat).
    { intros a Ha. pose proof (count_index a n Ha) as Hc.
      revert Hc. generalize (seq 0 n). intros l.
      assert (Hg : sum_list (map (fun v => ((if decide (v = a) then 1 else 0) * 2)%nat) l)
                   = (2 * sum_list (map (fun v => if decide (v = a) then 1%nat else 0%nat) l))%nat).
      { induction l as [|x l IHl]; simpl; [reflexivity|]. rewrite IHl. lia. }
      rewrite Hg. lia. }
    rewrite !Hd by assumption. reflexivity.
  - intros v. rewrite length_neighbours. unfold slots_of. lia.
Qed.

Lemma adjacency_total n ind :
  all_in_range n ind ->
  sum_list (map length (adjacency_of n ind)) = (6 * length ind)%nat.
Proof.
  intros Hr. unfold adjacency_of. rewrite map_map.
  induction Hr as [|t ind Ht _ IH]; cbn [flat_map length].
  - induction (seq 0 n) as [|x l IHl]; simpl; [reflexivity | now rewrite IHl].
  - rewrite (map_ext _ (fun v => (length (neighbours v t)
                                  + length (flat_map (neighbours v) ind))%nat))
      by (intros v; apply length_app).
    rewrite sum_list_map_add, IH, neighbours_total by assumption. lia.
Qed.

(** X7.  For indices in range, the adjacency list built by [vertexNormals]
    is a symmetric relation on the vertices: every entry of the list of a
    vertex v is a vertex j of the point set whose own list contains v; and
    the lists hold six entries per triangle in all. *)
Theorem adjacency_symmetric_six_per_triangle :
  forall (n : nat) (ind : list Tri),
    all_in_range n ind ->
    exists adjacency,
      buildAdjacency n ind = Ok adjacency
      /\ (forall v j adj_v,
            adjacency !! v = Some adj_v -> j ∈ adj_v ->
            (j < n)%nat
            /\ exists adj_j, adjacency !! j = Some adj_j /\ v ∈ adj_j)
      /\ sum_list (map length adjacency) = (6 * length ind)%nat.
Proof.
  intros n ind Hr. exists (adjacency_of n ind).
  split; [now apply buildAdjacency_in_range|].
  split; [|now apply adjacency_total].
  intros v j adj_v Hv Hj.
  assert (Hvn : (v < n)%nat).
  { apply lookup_lt_Some in Hv. now rewrite adjacency_of_length in Hv. }
  rewrite adjacency_of_lookup in Hv by assumption. injection Hv as <-.
  apply elem_of_adjacency_entries in Hj as (t & Ht & Hj).
  assert (Hjn : (j < n)%nat).
  { unfold all_in_range in Hr. rewrite Forall_forall in Hr.
    apply (incident_in_range n t); [now apply Hr|].
    now apply (neighbours_incident v). }
  split; [assumption|].
  exists (flat_map (neighbours j) ind).
  split; [now apply adjacency_of_lookup|].
  apply elem_of_adjacency_entries. exists t. split; [assumption|].
  now apply neighbours_symmetric.
Qed.

Lemma adjacency_symmetric_six_per_triangle_witness :
  exists adjacency,
    buildAdjacency 4 [mkTri 0 1 2; mkTri 0 3 1] = Ok adjacency
    /\ sum_list (map length adjacency) = 12%nat.
Proof.
  destruct (adjacency_symmetric_six_per_triangle 4 [mkTri 0 1 2; mkTri 0 3 1])
    as (adjacency & Hrun & _ & Hsum).
  - repeat constructor.
  - exists adjacency. split; [exact Hrun | exact Hsum].
Defined.

(** ** The arrays handed to the renderer *)

Lemma dense_array {A : Type} (l : list (option A)) :
  (forall i, (i < length l)%nat -> exists x, l !! i = Some (Some x)) ->
  exists xs, l = map Some xs.
Proof.
  induction l as [|o l IH]; intros H.
  - now exists [].
  - destruct (H 0%nat) as [x Hx]; [simpl; lia|]. simpl in Hx. injection Hx as ->.
    destruct IH as [xs ->].
    + intros i Hi. apply (H (S i)). simpl. lia.
    + now exists (x :: xs).
Qed.

Lemma unwrapped_corners (v : list Vec3) (inds : list Tri) :
  flat_map coords (unwrapped origin v inds) = flat_map flat9 (map (corners v) inds).
Proof.
  unfold unwrapped. induction inds as [|t inds IH]; [reflexivity|].
  simpl. simpl in IH. now rewrite IH.
Qed.

(** ** The energy of a triangle *)

Lemma gram_determinant (u v : Vec3) :
  mat2.determinant (gram u v) = vec3.dot (vec3.cross u v) (vec3.cross u v).
Proof.
  unfold mat2.determinant, gram, vec3.dot, vec3.cross. cbn [m0 m1 m2 m3 c0 c1 c2].
  ring.
Qed.

Lemma gram_energy_nonneg (u v nu nv : Vec3) :
  vec3.cross u v <> origin ->
  0 <= trace (mat2.multiply (mat2.invert (gram u v)) (gram nu nv)).
Proof.
  intros Hne. pose proof (dot_self_pos _ Hne) as Hpos.
  rewrite <- gram_determinant in Hpos.
  unfold trace, mat2.multiply, mat2.invert. cbv zeta. cbn [m0 m1 m2 m3].
  set (d := mat2.determinant (gram u v)) in *.
  destruct u as [u0 u1 u2], v as [v0 v1 v2], nu as [a0 a1 a2], nv as [b0 b1 b2].
  unfold gram, vec3.dot. cbn [m0 m1 m2 m3 c0 c1 c2].
  match goal with
  | |- 0 <= ?e =>
      replace e with
        (((v0 * a0 - u0 * b0) ^ 2 + (v0 * a1 - u0 * b1) ^ 2 + (v0 * a2 - u0 * b2) ^ 2
          + (v1 * a0 - u1 * b0) ^ 2 + (v1 * a1 - u1 * b1) ^ 2 + (v1 * a2 - u1 * b2) ^ 2
          + (v2 * a0 - u2 * b0) ^ 2 + (v2 * a1 - u2 * b1) ^ 2 + (v2 * a2 - u2 * b2) ^ 2)
         / d) by (field; lra)
  end.
  apply Rmult_le_pos; [|left; now apply Rinv_0_lt_compat].
  repeat apply Rplus_le_le_0_compat; apply pow2_ge_0.
Qed.

Lemma energy_nonneg_clamped (p0 p1 p2 n0 n1 n2 : Vec3) :
  nondegenerate (p0, p1, p2) ->
  0 <= clamped_energy (p0, p1, p2) (n0, n1, n2).
Proof.
  intros Hnd. unfold nondegenerate in Hnd. unfold clamped_energy.
  apply Rmin_glb; [|lra]. unfold energy. now apply gram_energy_nonneg.
Qed.

(** X10.  The matrix G of a triangle is singular exactly when the triangle
    has no area: its determinant is the squared length of the cross product
    of the two edge vectors.  For a triangle with a non-zero area the energy
    trace (G^-1 H) is never negative, whatever the normals, so that the
    clamped energy lies between 0 and 1000. *)
Theorem energy_nonnegative :
  forall p0 p1 p2 n0 n1 n2 : Vec3,
    mat2.determinant (gram (vec3_sub p1 p0) (vec3_sub p2 p0))
    = vec3.dot (vec3.cross (vec3_sub p1 p0) (vec3_sub p2 p0))
               (vec3.cross (vec3_sub p1 p0) (vec3_sub p2 p0))
    /\ (nondegenerate (p0, p1, p2) ->
        0 <= energy (p0, p1, p2) (n0, n1, n2)
        /\ 0 <= clamped_energy (p0, p1, p2) (n0, n1, n2) <= 1000).
Proof.
  intros p0 p1 p2 n0 n1 n2. split; [apply gram_determinant|].
  intros Hnd. unfold nondegenerate in Hnd.
  assert (He : 0 <= energy (p0, p1, p2) (n0, n1, n2)).
  { unfold energy. now apply gram_energy_nonneg. }
  split; [assumption|].
  unfold clamped_energy. split.
  - apply Rmin_glb; lra.
  - apply Rmin_r.
Qed.

Lemma energy_nonnegative_witness :
  0 <= energy (mkVec3 0 0 0, mkVec3 1 0 0, mkVec3 0 1 0)
              (mkVec3 0 0 1, mkVec3 1 0 1, mkVec3 0 1 1).
Proof.
  apply (energy_nonnegative (mkVec3 0 0 0) (mkVec3 1 0 0) (mkVec3 0 1 0)
                            (mkVec3 0 0 1) (mkVec3 1 0 1) (mkVec3 0 1 1)).
  unfold nondegenerate, vec3.cross, vec3_sub, origin. cbn [c0 c1 c2].
  intros [= _ _ H]. lra.
Defined.



Lemma In_zip_with_energy (e : R) (tris nrms : list Triangle3) :
  In e (zip_with clamped_energy tris nrms) ->
  exists t n, In t tris /\ e = clamped_energy t n.
Proof.
  revert nrms. induction tris as [|t tris IH]; intros nrms H; [destruct H|].
  destruct nrms as [|n nrms]; [destruct H|].
  cbn [zip_with] in H. destruct H as [<-|H].
  - exists t, n. split; [now left | reflexivity].
  - destruct (IH nrms H) as (t' & n' & Ht & He).
    exists t', n'. split; [now right | assumption].
Qed.


Lemma nondegenerate_nonsingular (p0 p1 p2 : Vec3) :
  nondegenerate (p0, p1, p2)
  <-> mat2.determinant (gram (vec3_sub p1 p0) (vec3_sub p2 p0)) <> 0.
Proof.
  unfold nondegenerate. rewrite gram_determinant. split.
  - intros Hne. pose proof (dot_self_pos _ Hne). lra.
  - intros Hdet Hz. apply Hdet. rewrite Hz. unfold vec3.dot, origin.
    cbn [c0 c1 c2]. ring.
Qed.

Lemma clamped_energies_nonneg (tris nrms : list Triangle3) (e : R) :
  Forall nondegenerate tris ->
  In e (zip_with clamped_energy tris nrms) -> 0 <= e <= 1000.
Proof.
  intros Hnd He.
  apply In_zip_with_energy in He as ([[p0 p1] p2] & [[n0 n1] n2] & Ht & ->).
  rewrite Forall_forall in Hnd. split.
  - apply (energy_nonneg_clamped p0 p1 p2 n0 n1 n2).
    apply Hnd. now apply list_elem_of_In.
  - unfold clamped_energy. apply Rmin_r.
Qed.

Lemma largest_energy_attained (es : list R) :
  MaxRlist es <> 0 -> In (MaxRlist es) es.
Proof.
  intros HM. apply MaxRlist_P2. destruct es as [|e l].
  - simpl in HM. congruence.
  - exists e. now left.
Qed.

(** The triangle (0,0,0), (1,0,0), (0,1,0) with the normals (0,0,1),
    (1,0,1), (0,1,1): G and H are both the identity matrix. *)
Lemma unit_triangle_energy :
  clamped_energy (mkVec3 0 0 0, mkVec3 1 0 0, mkVec3 0 1 0)
                 (mkVec3 0 0 1, mkVec3 1 0 1, mkVec3 0 1 1) = 2.
Proof.
  unfold clamped_energy, energy, trace, mat2.multiply, mat2.invert,
    mat2.determinant, gram, vec3.dot, vec3_sub.
  cbv zeta. cbn [m0 m1 m2 m3 c0 c1 c2].
  match goal with
  | |- Rmin ?e 1000 = 2 => replace e with 2 by (field; lra)
  end.
  apply Rmin_left. lra.
Qed.

Lemma unit_triangle_nondegenerate :
  nondegenerate (mkVec3 0 0 0, mkVec3 1 0 0, mkVec3 0 1 0).
Proof.
  unfold nondegenerate, vec3.cross, vec3_sub, origin. cbn [c0 c1 c2].
  intros [= _ _ H]. lra.
Qed.

(** C2.  For unwrapped point and normal arrays describing the same number
    of triangles, none of them degenerate (the matrix G of each triangle
    has a non-zero determinant), and whose largest clamped energy M is not
    zero, [surfaceVariation] computes for each triangle the energy
    trace (G^-1 H), with G built from the edge vectors u = p1 - p0,
    v = p2 - p0 and H from the normal differences nu = n1 - n0,
    nv = n2 - n0, replaces it by 1000 when it exceeds 1000, divides every
    stored scalar by the maximum M of these clamped values over all
    triangles, maps it through 1 - exp (2.99572315 - 15 e) / 20, and
    returns three equal scalars per triangle.  The clamped energies lie
    between 0 and M, and M is positive.  (On a degenerate triangle the
    inverse of G does not exist, and with M = 0 the division is 0 / 0: the
    code's numbers are then not those of this equation.) *)
Theorem surfaceVariation_dirichlet_energy :
  forall tris nrms : list Triangle3,
    length tris = length nrms ->
    Forall nondegenerate tris ->
    let es := zip_with clamped_energy tris nrms in
    let M := MaxRlist es in
    M <> 0 ->
    surfaceVariation (flat_map flat9 tris) (flat_map flat9 nrms)
    = Some (flat_map (fun e =>
                        let s := 1 - exp (2.99572315 - 15 * (e / M)) / 20 in
                        [s; s; s]) es)
    /\ (forall i t n, tris !! i = Some t -> nrms !! i = Some n ->
          mat2.determinant (gram (vec3_sub (snd (fst t)) (fst (fst t)))
                                 (vec3_sub (snd t) (fst (fst t)))) <> 0
          /\ es !! i = Some (if Rgt_dec (energy t n) 1000 then 1000 else energy t n))
    /\ (forall e, In e es -> 0 <= e <= M)
    /\ In M es
    /\ 0 < M.
Proof.
  intros tris nrms Hlen Hnd es M HM.
  assert (HinM : In M es) by now apply largest_energy_attained.
  split; [now apply surfaceVariation_triangles|].
  split.
  - intros i t n Ht Hn. split.
    + destruct t as [[p0 p1] p2]. cbn [fst snd].
      apply nondegenerate_nonsingular.
      rewrite Forall_forall in Hnd. apply Hnd.
      now apply list_elem_of_lookup_2 in Ht.
    + unfold es. rewrite lookup_zip_with, Ht, Hn. simpl.
      f_equal. unfold clamped_energy. rewrite <- clampTrace_Rmin. reflexivity.
  - split.
    + intros e He. split.
      * now apply (clamped_energies_nonneg tris nrms e Hnd).
      * now apply MaxRlist_P1.
    + split; [assumption|].
      destruct (clamped_energies_nonneg tris nrms M Hnd HinM) as [H0 _]. lra.
Qed.

Lemma surfaceVariation_dirichlet_energy_witness :
  surfaceVariation
    (flat_map flat9 [(mkVec3 0 0 0, mkVec3 1 0 0, mkVec3 0 1 0)])
    (flat_map flat9 [(mkVec3 0 0 1, mkVec3 1 0 1, mkVec3 0 1 1)])
  = Some (flat_map
            (fun e =>
               let s := 1 - exp (2.99572315
                                 - 15 * (e / MaxRlist
                                   (zip_with clamped_energy
                                      [(mkVec3 0 0 0, mkVec3 1 0 0, mkVec3 0 1 0)]
                                      [(mkVec3 0 0 1, mkVec3 1 0 1, mkVec3 0 1 1)])))
                        / 20 in
               [s; s; s])
            (zip_with clamped_energy
               [(mkVec3 0 0 0, mkVec3 1 0 0, mkVec3 0 1 0)]
               [(mkVec3 0 0 1, mkVec3 1 0 1, mkVec3 0 1 1)])).
Proof.
  apply (surfaceVariation_dirichlet_energy
           [(mkVec3 0 0 0, mkVec3 1 0 0, mkVec3 0 1 0)]
           [(mkVec3 0 0 1, mkVec3 1 0 1, mkVec3 0 1 1)]).
  - reflexivity.
  - constructor; [exact unit_triangle_nondegenerate | constructor].
  - cbn [zip_with MaxRlist]. rewrite unit_triangle_energy. lra.
Defined.



(** ** Angles and orientation *)

(** X12.  [angleRangeClamp] wraps an angle at most once: its result is the
    angle itself, or the angle moved by one turn; it lands in [0, 2 PI] for
    the angles from -2 PI to 4 PI and for no other; and 2 PI itself is left
    as it is, not wrapped to 0. *)
Theorem angleRangeClamp_wraps_once :
  forall angle : R,
    (angleRangeClamp angle = angle
     \/ angleRangeClamp angle = angle - 2 * PI
     \/ angleRangeClamp angle = angle + 2 * PI)
    /\ (0 <= angleRangeClamp angle <= 2 * PI <-> - (2 * PI) <= angle <= 4 * PI)
    /\ angleRangeClamp (2 * PI) = 2 * PI.
Proof.
  intros angle. pose proof PI_RGT_0 as Hpi.
  unfold angleRangeClamp, Math.PI.
  split; [|split].
  - destruct (Rgt_dec angle (PI * 2)); [right; left; ring|].
    destruct (Rlt_dec angle 0); [right; right; ring | now left].
  - destruct (Rgt_dec angle (PI * 2)); [split; intros; lra|].
    destruct (Rlt_dec angle 0); split; intros; lra.
  - destruct (Rgt_dec (2 * PI) (PI * 2)); [lra|].
    destruct (Rlt_dec (2 * PI) 0); lra.
Qed.







(** ** The two unwrapping functions *)

(** X14.  [unwrapVectorArray] and [unwrapArray] read the same entries of
    the array: when [unwrapVectorArray] returns, [unwrapArray] returns the
    points whose coordinates it lists, none of them undefined; and
    [unwrapVectorArray] throws exactly when [unwrapArray] returns an array
    that holds an undefined value. *)
Theorem unwrapVectorArray_flattens_unwrapArray :
  forall (v : list Vec3) (inds : list Tri),
    match unwrapVectorArray v inds with
    | Ok out =>
        exists points,
          unwrapArray v inds = Ok (map Some points)
          /\ out = flat_map coords points
          /\ length points = (3 * length inds)%nat
    | Throw _ =>
        exists values, unwrapArray v inds = Ok values /\ None ∈ values
    end.
Proof.
  intros v inds.
  destruct (all_in_range_dec (length v) inds) as [Hr|Hex].
  - rewrite (unwrapVectorArray_in_range v inds Hr).
    exists (unwrapped origin v inds).
    split; [now apply unwrapArray_in_range|]. split; [reflexivity|].
    unfold unwrapped. now rewrite (length_flat_map_chunks _ 3) by reflexivity.
  - rewrite (unwrapVectorArray_out_of_range v inds Hex).
    now apply unwrapArray_out_of_range.
Qed.

(** ** triangulate *)

Lemma range_step_count (step fuel j stop count : nat) :
  (0 < step)%nat ->
  (forall k, (step * k < stop)%nat <-> (k < count)%nat) ->
  (count - j <= fuel)%nat ->
  range_step fuel (step * j) stop step
  = map (fun k => (step * k)%nat) (seq j (count - j)).
Proof.
  intros Hstep Hcount. revert j. induction fuel as [|fuel IH]; intros j Hfuel; simpl.
  - replace (count - j)%nat with 0%nat by lia. reflexivity.
  - destruct (decide (step * j < stop)%nat) as [Hlt|Hge].
    + apply Hcount in Hlt.
      replace (count - j)%nat with (S (count - S j)) by lia. simpl. f_equal.
      replace (step * j + step)%nat with (step * S j)%nat by lia.
      apply IH. lia.
    + assert (~ (j < count)%nat) by (intros H; now apply Hcount in H).
      replace (count - j)%nat with 0%nat by lia. reflexivity.
Qed.

Lemma range_step_thirds (stop : nat) :
  range_step stop 0 stop 3
  = map (fun k => (3 * k)%nat) (seq 0 ((stop + 2) / 3)).
Proof.
  pose proof (Nat.div_mod_eq (stop + 2) 3) as Hdm.
  pose proof (Nat.mod_upper_bound (stop + 2) 3) as Hr.
  pose proof (range_step_count 3 stop 0 stop ((stop + 2) / 3)) as H.
  rewrite Nat.mul_0_r, Nat.sub_0_r in H. apply H; [lia| |lia].
  intros k. lia.
Qed.

Lemma fold_left_push {A B : Type} (f : A -> B) (l : list A) (acc : list B) :
  fold_left (fun tris i => tris ++ [f i]) l acc = acc ++ map f l.
Proof.
  revert acc. induction l as [|a l IH]; intros acc; simpl.
  - now rewrite app_nil_r.
  - rewrite IH. now rewrite <- app_assoc.
Qed.

Lemma triangulate_groups (D : list Vec3 -> list nat) (verts : list Vec3) :
  triangulate D verts
  = map (fun k => (D verts !! (3 * k)%nat, D verts !! (3 * k + 1)%nat,
                   D verts !! (3 * k + 2)%nat))
        (seq 0 ((length (D verts) + 2) / 3)).
Proof.
  unfold triangulate. cbv zeta.
  rewrite (fold_left_push (fun i => (D verts !! i, D verts !! (i + 1)%nat,
                                     D verts !! (i + 2)%nat))).
  rewrite range_step_thirds, map_map. reflexivity.
Qed.

(** X15.  [triangulate] regroups what the triangulation returns: when the
    flat index array lists the indices of a sequence of triangles, three per
    triangle, the result is that sequence of triangles, in order, each with
    its three indices defined. *)
Theorem triangulate_regroups_triangles :
  forall (D : list Vec3 -> list nat) (verts : list Vec3) (tris : list Tri),
    D verts = flat_map indices tris ->
    triangulate D verts = map index_triple tris.
Proof.
  intros D verts tris HD. rewrite triangulate_groups, HD.
  rewrite (length_flat_map_chunks indices 3) by reflexivity.
  replace ((3 * length tris + 2) / 3)%nat with (length tris)
    by (apply Nat.div_unique with 2%nat; lia).
  apply list_eq. intros k. rewrite !list_lookup_fmap.
  destruct (decide (k < length tris)%nat) as [Hk|Hk].
  - rewrite lookup_seq_lt by assumption. cbn [fmap option_fmap option_map Nat.add].
    destruct (lookup_lt_is_Some_2 tris k Hk) as [t Ht]. rewrite Ht.
    cbn [fmap option_fmap option_map].
    assert (Hsplit : tris = take k tris ++ t :: drop (S k) tris).
    { symmetry. now apply take_drop_middle. }
    assert (Hlen : length (take k tris) = k) by (rewrite length_take; lia).
    rewrite Hsplit.
    pose proof (lookup_flat_map_chunk indices 3 (take k tris) t (drop (S k) tris)) as L.
    rewrite Hlen in L.
    pose proof (L 0%nat (fun _ => eq_refl)) as L0. rewrite Nat.add_0_r in L0.
    rewrite L0, (L 1%nat), (L 2%nat) by (reflexivity || lia). reflexivity.
  - rewrite lookup_seq_ge by lia. rewrite lookup_ge_None_2 by lia. reflexivity.
Qed.

Lemma triangulate_regroups_triangles_witness :
  triangulate (fun _ => [0; 1; 2; 2; 1; 3]%nat) [] =
  map index_triple [mkTri 0 1 2; mkTri 2 1 3].
Proof.
  apply (triangulate_regroups_triangles (fun _ => [0; 1; 2; 2; 1; 3]%nat) []
           [mkTri 0 1 2; mkTri 2 1 3]).
  reflexivity.
Defined.

(** X16.  [triangulate] returns one triple per started group of three
    indices, so as many as a third of the flat array's length, rounded up;
    all entries of all triples are defined exactly when that length is a
    multiple of 3: otherwise the last triple holds undefined entries. *)
Theorem triangulate_group_count :
  forall (D : list Vec3 -> list nat) (verts : list Vec3),
    length (triangulate D verts) = ((length (D verts) + 2) / 3)%nat
    /\ (Forall fully_defined (triangulate D verts)
        <-> (length (D verts) mod 3 = 0)%nat).
Proof.
  intros D verts. rewrite triangulate_groups.
  generalize (D verts). intros u.
  assert (Hlook : forall i, is_Some (u !! i) <-> (i < length u)%nat)
    by (intros i; apply lookup_lt_is_Some).
  revert Hlook. generalize (length u). intros n Hlook.
  pose proof (Nat.div_mod_eq (n + 2) 3) as Hdm.
  pose proof (Nat.mod_upper_bound (n + 2) 3) as Hr.
  pose proof (Nat.div_mod_eq n 3) as Hdm'.
  pose proof (Nat.mod_upper_bound n 3) as Hr'.
  split; [now rewrite length_map, length_seq|].
  rewrite Forall_fmap, Forall_forall. split.
  - intros Hall.
    destruct (decide (n = 0)%nat) as [Hz|Hnz]; [rewrite Hz; reflexivity|].
    assert (Hin : ((n + 2) / 3 - 1)%nat ∈ seq 0 ((n + 2) / 3)).
    { apply elem_of_seq. lia. }
    specialize (Hall _ Hin). cbn [compose fully_defined] in Hall.
    destruct Hall as (_ & _ & Hx). apply Hlook in Hx. lia.
  - intros Hmod k Hk. apply elem_of_seq in Hk. cbn [compose fully_defined].
    repeat split; apply Hlook; lia.
Qed.

(** ** getAabb on binary64 numbers *)

Ltac compare_cases :=
  repeat match goal with
         | |- context [Z.compare ?a ?b] => destruct (Z.compare_spec a b)
         | H : context [Z.compare ?a ?b] |- _ => destruct (Z.compare_spec a b)
         | |- context [Pos.compare_cont Eq ?a ?b] =>
             change (Pos.compare_cont Eq a b) with (Pos.compare a b);
             destruct (Pos.compare_spec a b)
         | H : context [Pos.compare_cont Eq ?a ?b] |- _ =>
             change (Pos.compare_cont Eq a b) with (Pos.compare a b) in H;
             destruct (Pos.compare_spec a b)
         end.

Lemma SFcompare_refl (f : SpecFloat.spec_float) :
  f <> SpecFloat.S754_nan -> SpecFloat.SFcompare f f = Some Eq.
Proof.
  destruct f as [s|s| |s m e]; intros H; try congruence; destruct s; simpl;
    try reflexivity; rewrite Z.compare_refl;
    change (Pos.compare_cont Eq m m) with (Pos.compare m m);
    now rewrite Pos.compare_refl.
Qed.

Lemma SFleb_trans (f g h : SpecFloat.spec_float) :
  SpecFloat.SFleb f g = true -> SpecFloat.SFleb g h = true ->
  SpecFloat.SFleb f h = true.
Proof.
  unfold SpecFloat.SFleb.
  destruct f as [sf|sf| |sf mf ef], g as [sg|sg| |sg mg eg], h as [sh|sh| |sh mh eh];
    try destruct sf; try destruct sg; try destruct sh; simpl;
    try discriminate; try reflexivity; intros H1 H2;
    compare_cases; simpl in *; try discriminate; try reflexivity; try lia.
Qed.

Lemma SFleb_total (f g : SpecFloat.spec_float) :
  f <> SpecFloat.S754_nan -> g <> SpecFloat.S754_nan ->
  SpecFloat.SFltb f g = false -> SpecFloat.SFleb g f = true.
Proof.
  unfold SpecFloat.SFleb, SpecFloat.SFltb.
  destruct f as [sf|sf| |sf mf ef], g as [sg|sg| |sg mg eg];
    try destruct sf; try destruct sg; simpl; intros Hf Hg; try congruence;
    intros H; compare_cases; simpl in *; try discriminate; try reflexivity; try lia.
Qed.

Lemma SFltb_leb (f g : SpecFloat.spec_float) :
  SpecFloat.SFltb f g = true -> SpecFloat.SFleb f g = true.
Proof.
  unfold SpecFloat.SFleb, SpecFloat.SFltb.
  destruct (SpecFloat.SFcompare f g) as [[| |]|]; congruence.
Qed.

Lemma not_nan_spec (v : float) :
  not_nan v <-> FloatOps.Prim2SF v <> SpecFloat.S754_nan.
Proof.
  unfold not_nan, PrimFloat.is_nan. rewrite FloatAxioms.eqb_spec.
  unfold SpecFloat.SFeqb. split.
  - intros H E. rewrite E in H. discriminate.
  - intros H. now rewrite SFcompare_refl.
Qed.

Lemma is_nan_spec (v : float) :
  PrimFloat.is_nan v = true <-> FloatOps.Prim2SF v = SpecFloat.S754_nan.
Proof.
  split.
  - intros H. destruct (FloatOps.Prim2SF v) eqn:E; try reflexivity;
      exfalso; assert (Hn : not_nan v)
        by (apply not_nan_spec; rewrite E; discriminate);
      unfold not_nan in Hn; congruence.
  - intros E. destruct (PrimFloat.is_nan v) eqn:H; [reflexivity|].
    exfalso. now apply (proj1 (not_nan_spec v) H).
Qed.

Lemma fle_refl (v : float) : not_nan v -> fle v v.
Proof.
  intros H. apply not_nan_spec in H. unfold fle.
  rewrite FloatAxioms.leb_spec. unfold SpecFloat.SFleb.
  now rewrite SFcompare_refl.
Qed.

Lemma fle_trans (u v w : float) : fle u v -> fle v w -> fle u w.
Proof.
  unfold fle. rewrite !FloatAxioms.leb_spec. apply SFleb_trans.
Qed.

Lemma flt_fle (v w : float) : PrimFloat.ltb v w = true -> fle v w.
Proof.
  unfold fle. rewrite FloatAxioms.ltb_spec, FloatAxioms.leb_spec. apply SFltb_leb.
Qed.

Lemma not_flt_fle (v w : float) :
  not_nan v -> not_nan w -> PrimFloat.ltb v w = false -> fle w v.
Proof.
  intros Hv Hw. apply not_nan_spec in Hv, Hw. unfold fle.
  rewrite FloatAxioms.ltb_spec, FloatAxioms.leb_spec. now apply SFleb_total.
Qed.

Lemma nan_not_flt (v w : float) :
  PrimFloat.is_nan v = true ->
  PrimFloat.ltb v w = false /\ PrimFloat.ltb w v = false.
Proof.
  intros H. apply is_nan_spec in H.
  rewrite !FloatAxioms.ltb_spec, H. unfold SpecFloat.SFltb.
  split; [reflexivity|]. now destruct (FloatOps.Prim2SF w).
Qed.

Lemma not_below_infinity (v : float) :
  not_nan v -> PrimFloat.ltb v infinity = false -> v = infinity.
Proof.
  intros Hv H. apply not_nan_spec in Hv.
  rewrite FloatAxioms.ltb_spec in H.
  rewrite <- (FloatAxioms.SF2Prim_Prim2SF v).
  change infinity with (FloatOps.SF2Prim (SpecFloat.S754_infinity false)).
  f_equal. revert H. unfold SpecFloat.SFltb.
  change (FloatOps.Prim2SF (FloatOps.SF2Prim (SpecFloat.S754_infinity false)))
    with (SpecFloat.S754_infinity false).
  destruct (FloatOps.Prim2SF v) as [s|s| |s m e]; try congruence;
    destruct s; simpl; congruence.
Qed.

Lemma not_above_neg_infinity (v : float) :
  not_nan v -> PrimFloat.ltb neg_infinity v = false -> v = neg_infinity.
Proof.
  intros Hv H. apply not_nan_spec in Hv.
  rewrite FloatAxioms.ltb_spec in H.
  rewrite <- (FloatAxioms.SF2Prim_Prim2SF v).
  change neg_infinity with (FloatOps.SF2Prim (SpecFloat.S754_infinity true)).
  f_equal. revert H. unfold SpecFloat.SFltb.
  change (FloatOps.Prim2SF (FloatOps.SF2Prim (SpecFloat.S754_infinity true)))
    with (SpecFloat.S754_infinity true).
  destruct (FloatOps.Prim2SF v) as [s|s| |s m e]; try congruence;
    destruct s; simpl; congruence.
Qed.

Lemma scan_axes (verts : list aabb.FPoint) (e : aabb.extrema) :
  let e' := fold_left aabb.scan verts e in
  (aabb.xmin e', aabb.xmax e')
  = fold_left scan_axis (map aabb.f0 verts) (aabb.xmin e, aabb.xmax e)
  /\ (aabb.ymin e', aabb.ymax e')
     = fold_left scan_axis (map aabb.f1 verts) (aabb.ymin e, aabb.ymax e)
  /\ (aabb.zmin e', aabb.zmax e')
     = fold_left scan_axis (map aabb.f2 verts) (aabb.zmin e, aabb.zmax e).
Proof.
  revert e. induction verts as [|p verts IH]; intros e; [now repeat split|].
  cbn [fold_left map]. cbv zeta in IH. destruct (IH (aabb.scan e p)) as (Hx & Hy & Hz).
  rewrite Hx, Hy, Hz. now repeat split.
Qed.

Lemma scan_axis_not_nan (lo hi v : float) :
  not_nan lo -> not_nan hi -> not_nan v ->
  not_nan (fst (scan_axis (lo, hi) v)) /\ not_nan (snd (scan_axis (lo, hi) v)).
Proof.
  intros Hlo Hhi Hv. unfold scan_axis. cbn [fst snd].
  split; [destruct (PrimFloat.ltb v lo) | destruct (PrimFloat.ltb hi v)]; assumption.
Qed.

Lemma axis_bounds (vs : list float) (lo hi : float) :
  not_nan lo -> not_nan hi -> Forall not_nan vs ->
  let r := fold_left scan_axis vs (lo, hi) in
  fle (fst r) lo /\ fle hi (snd r)
  /\ forall v, v ∈ vs -> fle (fst r) v /\ fle v (snd r).
Proof.
  intros Hlo Hhi Hvs. revert lo hi Hlo Hhi.
  induction Hvs as [|v vs Hv _ IH]; intros lo hi Hlo Hhi; cbn [fold_left].
  - split; [now apply fle_refl|]. split; [now apply fle_refl|].
    intros v Hv. now apply elem_of_nil in Hv.
  - destruct (scan_axis_not_nan lo hi v Hlo Hhi Hv) as [Hlo1 Hhi1].
    destruct (scan_axis (lo, hi) v) as [lo1 hi1] eqn:E. cbn [fst snd] in *.
    assert (Hstep : fle lo1 lo /\ fle hi hi1 /\ fle lo1 v /\ fle v hi1).
    { unfold scan_axis in E. cbn [fst snd] in E. injection E as <- <-.
      destruct (PrimFloat.ltb v lo) eqn:E1, (PrimFloat.ltb hi v) eqn:E2;
        repeat split;
        first [ now apply fle_refl | now apply flt_fle | now apply not_flt_fle ]. }
    destruct Hstep as (S1 & S2 & S3 & S4).
    destruct (IH lo1 hi1 Hlo1 Hhi1) as (B1 & B2 & B3).
    split; [now apply (fle_trans _ lo1)|].
    split; [now apply (fle_trans _ hi1)|].
    intros w Hw. apply elem_of_cons in Hw as [->|Hw].
    + split; [now apply (fle_trans _ lo1) | now apply (fle_trans _ hi1)].
    + now apply B3.
Qed.

Lemma axis_picks (vs : list float) (lo hi : float) :
  let r := fold_left scan_axis vs (lo, hi) in
  fst r ∈ lo :: vs /\ snd r ∈ hi :: vs.
Proof.
  revert lo hi. induction vs as [|v vs IH]; intros lo hi; cbn [fold_left].
  - split; left.
  - destruct (scan_axis (lo, hi) v) as [lo1 hi1] eqn:E.
    destruct (IH lo1 hi1) as [H1 H2].
    unfold scan_axis in E. cbn [fst snd] in E. injection E as E1 E2.
    split.
    + apply elem_of_cons in H1 as [H1|H1].
      * rewrite H1, <- E1. destruct (PrimFloat.ltb v lo); [right; left | left].
      * do 2 right. exact H1.
    + apply elem_of_cons in H2 as [H2|H2].
      * rewrite H2, <- E2. destruct (PrimFloat.ltb hi v); [right; left | left].
      * do 2 right. exact H2.
Qed.

Lemma axis_attained (vs : list float) :
  vs <> [] -> Forall not_nan vs ->
  let r := fold_left scan_axis vs (infinity, neg_infinity) in
  fst r ∈ vs /\ snd r ∈ vs.
Proof.
  intros Hne Hvs. destruct vs as [|v vs]; [congruence|]. clear Hne.
  apply Forall_cons in Hvs as [Hv _]. cbn [fold_left].
  assert (E : scan_axis (infinity, neg_infinity) v = (v, v)).
  { unfold scan_axis. cbn [fst snd]. f_equal.
    - destruct (PrimFloat.ltb v infinity) eqn:E1; [reflexivity|].
      symmetry. now apply not_below_infinity.
    - destruct (PrimFloat.ltb neg_infinity v) eqn:E2; [reflexivity|].
      symmetry. now apply not_above_neg_infinity. }
  rewrite E. apply axis_picks.
Qed.

Lemma Forall_no_nan_axes (verts : list aabb.FPoint) :
  Forall no_nan verts ->
  Forall not_nan (map aabb.f0 verts) /\ Forall not_nan (map aabb.f1 verts)
  /\ Forall not_nan (map aabb.f2 verts).
Proof.
  intros H. rewrite !Forall_fmap. repeat split;
    (eapply Forall_impl; [exact H|]; intros p (H0 & H1 & H2); assumption).
Qed.

(** X17.  On points none of whose coordinates is NaN, the box computed by
    [getAabb] contains every point: on each axis the minimum is below or
    equal to, and the maximum above or equal to, the coordinate of every
    point (in the order of binary64 numbers, infinities included). *)
Theorem getAabb_contains_points :
  forall verts : list aabb.FPoint,
    Forall no_nan verts ->
    forall p, p ∈ verts -> in_box (aabb.getAabb verts) p.
Proof.
  intros verts Hnn p Hp.
  destruct (Forall_no_nan_axes verts Hnn) as (Nx & Ny & Nz).
  pose proof (scan_axes verts
                (aabb.mkExtrema infinity neg_infinity infinity neg_infinity
                                infinity neg_infinity)) as Hax.
  cbv zeta in Hax. cbn [aabb.xmin aabb.xmax aabb.ymin aabb.ymax aabb.zmin aabb.zmax]
    in Hax. destruct Hax as (Hx & Hy & Hz).
  assert (Hinf : not_nan infinity) by reflexivity.
  assert (Hninf : not_nan neg_infinity) by reflexivity.
  destruct (axis_bounds _ infinity neg_infinity Hinf Hninf Nx) as (_ & _ & Bx).
  destruct (axis_bounds _ infinity neg_infinity Hinf Hninf Ny) as (_ & _ & By).
  destruct (axis_bounds _ infinity neg_infinity Hinf Hninf Nz) as (_ & _ & Bz).
  rewrite <- Hx in Bx. rewrite <- Hy in By. rewrite <- Hz in Bz.
  cbn [fst snd] in Bx, By, Bz.
  destruct (Bx (aabb.f0 p)) as [X1 X2]; [now apply list_elem_of_fmap_2|].
  destruct (By (aabb.f1 p)) as [Y1 Y2]; [now apply list_elem_of_fmap_2|].
  destruct (Bz (aabb.f2 p)) as [Z1 Z2]; [now apply list_elem_of_fmap_2|].
  unfold in_box, aabb.getAabb. cbv zeta. cbn [aabb.min aabb.max aabb.x aabb.y aabb.z].
  repeat split; assumption.
Qed.

Lemma getAabb_contains_points_witness :
  in_box (aabb.getAabb [aabb.mkFPoint 1 5 (-2); aabb.mkFPoint 3 (-4) 7]%float)
         (aabb.mkFPoint 1 5 (-2))%float.
Proof.
  apply (getAabb_contains_points
           [aabb.mkFPoint 1 5 (-2); aabb.mkFPoint 3 (-4) 7]%float).
  - repeat constructor.
  - left.
Defined.

(** X18.  The box is tight: on a non-empty array of points without NaN
    coordinates, each of the six extrema returned by [getAabb] is the
    coordinate, on its axis, of one of the points. *)
Theorem getAabb_extrema_attained :
  forall verts : list aabb.FPoint,
    verts <> [] ->
    Forall no_nan verts ->
    let b := aabb.getAabb verts in
    aabb.x (aabb.min b) ∈ map aabb.f0 verts
    /\ aabb.x (aabb.max b) ∈ map aabb.f0 verts
    /\ aabb.y (aabb.min b) ∈ map aabb.f1 verts
    /\ aabb.y (aabb.max b) ∈ map aabb.f1 verts
    /\ aabb.z (aabb.min b) ∈ map aabb.f2 verts
    /\ aabb.z (aabb.max b) ∈ map aabb.f2 verts.
Proof.
  intros verts Hne Hnn b.
  destruct (Forall_no_nan_axes verts Hnn) as (Nx & Ny & Nz).
  pose proof (scan_axes verts
                (aabb.mkExtrema infinity neg_infinity infinity neg_infinity
                                infinity neg_infinity)) as Hax.
  cbv zeta in Hax. cbn [aabb.xmin aabb.xmax aabb.ymin aabb.ymax aabb.zmin aabb.zmax]
    in Hax. destruct Hax as (Hx & Hy & Hz).
  assert (Hm : forall f : aabb.FPoint -> float, map f verts <> []).
  { intros f. destruct verts; [congruence | discriminate]. }
  destruct (axis_attained _ (Hm aabb.f0) Nx) as [X1 X2].
  destruct (axis_attained _ (Hm aabb.f1) Ny) as [Y1 Y2].
  destruct (axis_attained _ (Hm aabb.f2) Nz) as [Z1 Z2].
  rewrite <- Hx in X1, X2. rewrite <- Hy in Y1, Y2. rewrite <- Hz in Z1, Z2.
  cbn [fst snd] in *.
  unfold b, aabb.getAabb. cbv zeta. cbn [aabb.min aabb.max aabb.x aabb.y aabb.z].
  repeat split; assumption.
Qed.

Lemma getAabb_extrema_attained_witness :
  aabb.x (aabb.min (aabb.getAabb
                      [aabb.mkFPoint 1 5 (-2); aabb.mkFPoint 3 (-4) 7]%float))
  ∈ map aabb.f0 [aabb.mkFPoint 1 5 (-2); aabb.mkFPoint 3 (-4) 7]%float.
Proof.
  apply (getAabb_extrema_attained
           [aabb.mkFPoint 1 5 (-2); aabb.mkFPoint 3 (-4) 7]%float).
  - discriminate.
  - repeat constructor.
Defined.

Lemma scan_all_nan (e : aabb.extrema) (p : aabb.FPoint) :
  all_nan p -> aabb.scan e p = e.
Proof.
  intros (H0 & H1 & H2). unfold aabb.scan. cbv zeta.
  destruct (nan_not_flt (aabb.f0 p) (aabb.xmin e) H0) as [-> _].
  destruct (nan_not_flt (aabb.f0 p) (aabb.xmax e) H0) as [_ ->].
  destruct (nan_not_flt (aabb.f1 p) (aabb.ymin e) H1) as [-> _].
  destruct (nan_not_flt (aabb.f1 p) (aabb.ymax e) H1) as [_ ->].
  destruct (nan_not_flt (aabb.f2 p) (aabb.zmin e) H2) as [-> _].
  destruct (nan_not_flt (aabb.f2 p) (aabb.zmax e) H2) as [_ ->].
  now destruct e.
Qed.

(** X19.  [getAabb] silently skips a point whose three coordinates are
    NaN: the box of an array is the box of the array without that point. *)
Theorem getAabb_ignores_nan_points :
  forall (before after : list aabb.FPoint) (p : aabb.FPoint),
    all_nan p ->
    aabb.getAabb (before ++ p :: after) = aabb.getAabb (before ++ after).
Proof.
  intros before after p Hp. unfold aabb.getAabb.
  rewrite !fold_left_app. cbn [fold_left]. now rewrite scan_all_nan.
Qed.

Lemma getAabb_ignores_nan_points_witness :
  aabb.getAabb ([aabb.mkFPoint 1 2 3]%float ++ aabb.mkFPoint nan nan nan
                  :: [aabb.mkFPoint 4 5 6]%float)
  = aabb.getAabb ([aabb.mkFPoint 1 2 3]%float ++ [aabb.mkFPoint 4 5 6]%float).
Proof.
  apply (getAabb_ignores_nan_points [aabb.mkFPoint 1 2 3]%float
           [aabb.mkFPoint 4 5 6]%float (aabb.mkFPoint nan nan nan)).
  repeat split.
Defined.

(** ** Mouse input of the viewer *)

Lemma total_displacements (p : R * R) (ps : list (R * R)) :
  total (displacements p ps)
  = (fst (default p (last ps)) - fst p, snd (default p (last ps)) - snd p).
Proof.
  revert p. induction ps as [|q ps IH]; intros p.
  - cbn. f_equal; lra.
  - cbn [displacements total fold_right]. fold (total (displacements q ps)).
    rewrite IH, last_cons. cbn [fst snd].
    destruct (last ps) as [r|]; cbn; f_equal; lra.
Qed.

Lemma run_cons (ev : viewer.event) (evs : list viewer.event) (s : viewer.state) :
  viewer.run (ev :: evs) s = viewer.run evs (viewer.dispatch s ev).
Proof. reflexivity. Qed.

Lemma drag_moves (w : N) (s : viewer.state) (moves : list viewer.MouseEvent) :
  (w = 1%N /\ viewer.onmousemove s = viewer.orbiting)
  \/ (w = 3%N /\ viewer.onmousemove s = viewer.panning) ->
  let start := (viewer.prevX (viewer.mouse s), viewer.prevY (viewer.mouse s)) in
  let s' := viewer.run (map viewer.mousemove moves) s in
  viewer.camera s'
  = viewer.camera s ++ map (drag_call w) (displacements start (map position moves))
  /\ (viewer.prevX (viewer.mouse s'), viewer.prevY (viewer.mouse s'))
     = default start (last (map position moves)).
Proof.
  revert s. induction moves as [|e moves IH]; intros s Hs; cbv zeta.
  - cbn. now rewrite app_nil_r.
  - cbn [map]. rewrite run_cons. cbn [viewer.dispatch].
    set (s1 := viewer.call_onmousemove e s).
    assert (H1 : viewer.camera s1
                 = viewer.camera s
                     ++ [drag_call w (viewer.pageX e - viewer.prevX (viewer.mouse s),
                                      viewer.pageY e - viewer.prevY (viewer.mouse s))]
                 /\ viewer.onmousemove s1 = viewer.onmousemove s
                 /\ (viewer.prevX (viewer.mouse s1), viewer.prevY (viewer.mouse s1))
                    = position e).
    { unfold s1, viewer.call_onmousemove.
      destruct Hs as [[-> E]|[-> E]]; rewrite E; cbn; repeat split. }
    destruct H1 as (Hc & Hh & Hp).
    destruct (IH s1) as [IHc IHp].
    { rewrite Hh. exact Hs. }
    rewrite Hp in IHc, IHp. rewrite IHc, IHp, Hc, <- app_assoc.
    cbn [displacements map app position fst snd]. split; [reflexivity|].
    rewrite last_cons. now destruct (last (map position moves)).
Qed.

(** X20.  A drag moves the camera by the displacement of the mouse: after
    a press of the left (or right) button, each mouse move calls
    [camera.orbit] (or [camera.pan]) once, with the displacement since the
    previous event scaled by 0.004 (or by -0.01 and 0.01); the position
    recorded at the press, not an older one, is the origin of the first
    step, so the displacements of a drag add up to the vector from the
    press to the last position, whatever the path and the earlier
    history. *)
Theorem drag_moves_camera_by_displacement :
  forall (s : viewer.state) (down : viewer.MouseEvent)
         (moves : list viewer.MouseEvent),
    viewer.pressed down = 1%N \/ viewer.pressed down = 3%N ->
    let s' := viewer.run (viewer.mousedown down :: map viewer.mousemove moves) s in
    let ds := displacements (position down) (map position moves) in
    let final := default (position down) (last (map position moves)) in
    viewer.camera s' = viewer.camera s ++ map (drag_call (viewer.pressed down)) ds
    /\ total ds = (fst final - viewer.pageX down, snd final - viewer.pageY down)
    /\ (viewer.prevX (viewer.mouse s'), viewer.prevY (viewer.mouse s')) = final.
Proof.
  intros s down moves Hw. cbv zeta.
  rewrite run_cons. cbn [viewer.dispatch].
  set (s0 := viewer.onMouseDown down s).
  assert (H0 : viewer.camera s0 = viewer.camera s
               /\ (viewer.prevX (viewer.mouse s0), viewer.prevY (viewer.mouse s0))
                  = position down
               /\ ((viewer.pressed down = 1%N
                    /\ viewer.onmousemove s0 = viewer.orbiting)
                   \/ (viewer.pressed down = 3%N
                       /\ viewer.onmousemove s0 = viewer.panning))).
  { unfold s0, viewer.onMouseDown. cbv zeta.
    destruct Hw as [E|E]; rewrite E; cbn; repeat split; [left|right]; now split. }
  destruct H0 as (Hc & Hp & Hh).
  destruct (drag_moves (viewer.pressed down) s0 moves Hh) as [Dc Dp].
  rewrite Hp in Dc, Dp. rewrite Hc in Dc.
  split; [exact Dc|]. split; [|exact Dp].
  rewrite total_displacements. reflexivity.
Qed.

Lemma drag_moves_camera_by_displacement_witness :
  viewer.camera
    (viewer.run [viewer.mousedown (viewer.mkMouseEvent 0 2 10 10);
                 viewer.mousemove (viewer.mkMouseEvent 0 0 13 14);
                 viewer.mousemove (viewer.mkMouseEvent 0 0 11 20)]
                viewer.initial)
  = [viewer.pan ((13 - 10) * -0.01) ((14 - 10) * 0.01);
     viewer.pan ((11 - 13) * -0.01) ((20 - 14) * 0.01)].
Proof.
  apply (drag_moves_camera_by_displacement viewer.initial
           (viewer.mkMouseEvent 0 2 10 10)
           [viewer.mkMouseEvent 0 0 13 14; viewer.mkMouseEvent 0 0 11 20]).
  right. reflexivity.
Defined.

Lemma idle_step (s : viewer.state) (ev : viewer.event) :
  idle s -> move_or_release ev ->
  viewer.camera (viewer.dispatch s ev) = viewer.camera s
  /\ viewer.mouse (viewer.dispatch s ev) = viewer.mouse s
  /\ idle (viewer.dispatch s ev).
Proof.
  intros Hs Hev. destruct ev as [e|e|e|e]; cbn in Hev; try contradiction.
  - cbn. repeat split. now right.
  - cbn [viewer.dispatch]. unfold viewer.call_onmousemove.
    destruct Hs as [E|E]; rewrite E; repeat split; unfold idle; rewrite E; tauto.
Qed.

(** X21.  Without a pressed button the mouse does not move the camera:
    while no drag is in progress (before the first press, or after a
    release), mouse moves and releases call no camera method and leave the
    recorded mouse position as it is. *)
Theorem no_camera_call_without_press :
  forall (s : viewer.state) (evs : list viewer.event),
    idle s ->
    Forall move_or_release evs ->
    viewer.camera (viewer.run evs s) = viewer.camera s
    /\ viewer.mouse (viewer.run evs s) = viewer.mouse s
    /\ idle (viewer.run evs s).
Proof.
  intros s evs Hs Hevs. revert s Hs.
  induction Hevs as [|ev evs Hev _ IH]; intros s Hs.
  - now repeat split.
  - rewrite run_cons.
    destruct (idle_step s ev Hs Hev) as (Hc & Hm & Hi).
    destruct (IH _ Hi) as (Hc' & Hm' & Hi').
    rewrite Hc', Hm', Hc, Hm. now repeat split.
Qed.

Lemma no_camera_call_without_press_witness :
  viewer.camera
    (viewer.run [viewer.mousemove (viewer.mkMouseEvent 0 0 5 6);
                 viewer.mouseup (viewer.mkMouseEvent 1 0 5 6);
                 viewer.mousemove (viewer.mkMouseEvent 0 0 50 60)]
                (viewer.onMouseUp (viewer.mkMouseEvent 1 0 3 3)
                   (viewer.onMouseDown (viewer.mkMouseEvent 1 0 1 1)
                      viewer.initial)))
  = [].
Proof.
  apply (no_camera_call_without_press
           (viewer.onMouseUp (viewer.mkMouseEvent 1 0 3 3)
              (viewer.onMouseDown (viewer.mkMouseEvent 1 0 1 1) viewer.initial))
           [viewer.mousemove (viewer.mkMouseEvent 0 0 5 6);
            viewer.mouseup (viewer.mkMouseEvent 1 0 5 6);
            viewer.mousemove (viewer.mkMouseEvent 0 0 50 60)]).
  - right. reflexivity.
  - repeat constructor.
Defined.

(** ** Stored normals of a PLY file *)

Lemma stored_normals_loop (nx ny nz : list R) (idx : list nat)
      (acc : list viewer.NumTriple) :
  for_each (fun norms i =>
              ny' ← prop (Some ny);
              nz' ← prop (Some nz);
              Ok (norms ++ [(nx !! i, ny' !! i, nz' !! i)])) idx acc
  = Ok (acc ++ map (fun i => (nx !! i, ny !! i, nz !! i)) idx).
Proof.
  revert acc. induction idx as [|i idx IH]; intros acc; cbn [for_each map].
  - now rewrite app_nil_r.
  - cbn. rewrite IH, <- app_assoc. reflexivity.
Qed.

(** ** surfaceOrientation on binary64 numbers *)

Lemma SFleb_not_ltb (f g : SpecFloat.spec_float) :
  SpecFloat.SFleb f g = true -> SpecFloat.SFltb g f = false.
Proof.
  unfold SpecFloat.SFleb, SpecFloat.SFltb.
  destruct f as [sf|sf| |sf mf ef], g as [sg|sg| |sg mg eg];
    try destruct sf; try destruct sg; simpl;
    try discriminate; try reflexivity; intros H;
    compare_cases; simpl in *; try discriminate; try reflexivity; try lia.
Qed.

Lemma fle_not_flt (v w : float) : fle v w -> PrimFloat.ltb w v = false.
Proof.
  unfold fle. rewrite FloatAxioms.leb_spec, FloatAxioms.ltb_spec.
  apply SFleb_not_ltb.
Qed.

Lemma angleRangeClamp_absorbed (theta : float) :
  PrimFloat.ltb theta 0 = true ->
  (theta + binary64.PI * 2 = binary64.PI * 2)%float ->
  binary64.angleRangeClamp theta = (binary64.PI * 2)%float.
Proof.
  intros Hneg Habs. unfold binary64.angleRangeClamp.
  assert (Hle : fle theta (binary64.PI * 2)%float).
  { apply (fle_trans _ 0%float); [now apply flt_fle | reflexivity]. }
  now rewrite (fle_not_flt _ _ Hle), Hneg.
Qed.

Lemma normalize_near_x_axis :
  binary64.normalize (1, - 0x1p-60)%float = (1, - 0x1p-60)%float.
Proof. vm_compute. reflexivity. Qed.

Lemma ninth_bin :
  (binary64.floor (binary64.PI * 2 / (2 * binary64.PI / 8)) / (8 - 1)
   = 8 / 7)%float.
Proof. vm_compute. reflexivity. Qed.

(** C5.  On binary64 numbers [surfaceOrientation] has a ninth level.  For
    the normal (1, -2^-60, 0), whose (x, y) part is normalized to itself,
    let theta be the angle [Math.atan2] returns.  When theta is negative
    and so small that theta + 2 PI rounds to 2 PI, [angleRangeClamp]
    returns 2 PI itself, outside [0, 2 PI); the floor of
    2 PI / (2 PI / 8) is then 8 and the value pushed is 8/7, which is none
    of the eight levels 0/7, ..., 7/7 and lies above 1. *)
Theorem surfaceOrientation_ninth_level :
  forall atan2 : float -> float -> float,
    let theta := atan2 (- 0x1p-60)%float 1%float in
    PrimFloat.ltb theta 0 = true ->
    (theta + binary64.PI * 2 = binary64.PI * 2)%float ->
    binary64.angleRangeClamp theta = (binary64.PI * 2)%float
    /\ binary64.surfaceOrientation atan2 [1; - 0x1p-60; 0]%float
       = [(8 / 7)%float]
    /\ PrimFloat.ltb 1 (8 / 7) = true.
Proof.
  intros atan2 theta Hneg Habs.
  pose proof (angleRangeClamp_absorbed theta Hneg Habs) as Hclamp.
  split; [exact Hclamp|]. split; [|reflexivity].
  unfold binary64.surfaceOrientation. cbv zeta.
  change (range_step (length [1; - 0x1p-60; 0]%float) 0
                     (length [1; - 0x1p-60; 0]%float) 3) with [0%nat].
  cbn [fold_left app].
  change ([1; - 0x1p-60; 0]%float !! 0%nat) with (Some 1%float).
  change ([1; - 0x1p-60; 0]%float !! (0 + 1)%nat) with (Some (- 0x1p-60)%float).
  cbn [default from_option]. unfold Datatypes.id.
  rewrite normalize_near_x_axis. cbn [fst snd]. fold theta.
  rewrite Hclamp, ninth_bin. reflexivity.
Qed.

Lemma surfaceOrientation_ninth_level_witness :
  binary64.surfaceOrientation small_angle_atan2 [1; - 0x1p-60; 0]%float
  = [(8 / 7)%float].
Proof.
  apply (surfaceOrientation_ninth_level small_angle_atan2).
  - vm_compute. reflexivity.
  - vm_compute. reflexivity.
Defined.

(** ** centerOfVolume and centerPointCloud on point objects *)

Section Centering.

Context {num : Type} {arith : cloud.Arith num}.

Implicit Types (store : list (cloud.Point num)) (points : list nat)
         (objs : list (cloud.Point num)).






End Centering.









(** ** The arrays viewData hands to the renderer *)

Lemma unwrapVectorArray_any_out_of_range (v : list (option viewer.NumTriple))
      (inds : list Tri) :
  Exists (out_of_range (length v)) inds ->
  viewer.unwrapVectorArray_any v inds = Throw TypeError.
Proof.
  intros Hex. unfold viewer.unwrapVectorArray_any.
  apply (for_each_throws _ (fun _ => True) (out_of_range (length v)));
    [|trivial|trivial|assumption].
  intros verts t _ Hbad.
  destruct (v !! i0 t) as [[p0|]|] eqn:E0; simpl; [|reflexivity|reflexivity].
  destruct (v !! i1 t) as [[p1|]|] eqn:E1; simpl; [|reflexivity|reflexivity].
  destruct (v !! i2 t) as [[p2|]|] eqn:E2; simpl; [|reflexivity|reflexivity].
  apply lookup_lt_Some in E0, E1, E2. unfold out_of_range in Hbad. lia.
Qed.

Lemma unwrapVectorArray_any_loop_in_range (v : list viewer.NumTriple)
      (inds : list Tri) (acc : list (option R)) :
  all_in_range (length v) inds ->
  exists out,
    for_each (fun verts t =>
      p ← prop (mjoin (map Some v !! i0 t));
      let verts := verts ++ [fst (fst p); snd (fst p); snd p] in
      p ← prop (mjoin (map Some v !! i1 t));
      let verts := verts ++ [fst (fst p); snd (fst p); snd p] in
      p ← prop (mjoin (map Some v !! i2 t));
      let verts := verts ++ [fst (fst p); snd (fst p); snd p] in
      Ok verts) inds acc = Ok out
    /\ length out = (length acc + 9 * length inds)%nat.
Proof.
  intros Hr. revert acc. induction Hr as [|t inds (H0 & H1 & H2) _ IH]; intros acc.
  - exists acc. split; [reflexivity|]. simpl. lia.
  - cbn [for_each].
    destruct (lookup_lt_is_Some_2 v _ H0) as [q0 E0].
    destruct (lookup_lt_is_Some_2 v _ H1) as [q1 E1].
    destruct (lookup_lt_is_Some_2 v _ H2) as [q2 E2].
    rewrite !list_lookup_fmap, E0, E1, E2. cbn.
    match goal with
    | |- exists out, for_each _ _ ?a = _ /\ _ =>
        destruct (IH a) as (out & Hrun & Hlen)
    end.
    exists out. split; [exact Hrun|].
    rewrite Hlen, !length_app. cbn [length]. lia.
Qed.

Lemma unwrapVectorArray_any_in_range (v : list viewer.NumTriple)
      (inds : list Tri) :
  all_in_range (length v) inds ->
  exists out,
    viewer.unwrapVectorArray_any (map Some v) inds = Ok out
    /\ length out = (9 * length inds)%nat.
Proof.
  intros Hr. apply (unwrapVectorArray_any_loop_in_range v inds [] Hr).
Qed.

Lemma bind_Ok {A B : Type} (a : A) (k : A -> result B) : (Ok a ≫= k) = k a.
Proof. reflexivity. Qed.

Lemma unwrapVectorArray_any_loop (v : list Vec3) (inds : list Tri) (acc : list R) :
  for_each (fun verts t =>
    p ← prop (mjoin (map (fun n => Some (viewer.triple n)) v !! i0 t));
    let verts := verts ++ [fst (fst p); snd (fst p); snd p] in
    p ← prop (mjoin (map (fun n => Some (viewer.triple n)) v !! i1 t));
    let verts := verts ++ [fst (fst p); snd (fst p); snd p] in
    p ← prop (mjoin (map (fun n => Some (viewer.triple n)) v !! i2 t));
    let verts := verts ++ [fst (fst p); snd (fst p); snd p] in
    Ok verts) inds (map Some acc)
  = match for_each (fun verts t =>
            p ← prop (v !! i0 t);
            let verts := verts ++ [c0 p; c1 p; c2 p] in
            p ← prop (v !! i1 t);
            let verts := verts ++ [c0 p; c1 p; c2 p] in
            p ← prop (v !! i2 t);
            let verts := verts ++ [c0 p; c1 p; c2 p] in
            Ok verts) inds acc with
    | Ok out => Ok (map Some out)
    | Throw e => Throw e
    end.
Proof.
  revert acc. induction inds as [|t inds IH]; intros acc; [reflexivity|].
  cbn [for_each]. rewrite !list_lookup_fmap.
  destruct (v !! i0 t) as [q0|]; cbn; [|reflexivity].
  destruct (v !! i1 t) as [q1|]; cbn; [|reflexivity].
  destruct (v !! i2 t) as [q2|]; cbn; [|reflexivity].
  rewrite <- IH. f_equal. now rewrite !map_app.
Qed.

Lemma unwrapVectorArray_any_vectors (v : list Vec3) (inds : list Tri) :
  viewer.unwrapVectorArray_any (map (fun n => Some (viewer.triple n)) v) inds
  = match unwrapVectorArray v inds with
    | Ok out => Ok (map Some out)
    | Throw e => Throw e
    end.
Proof. apply (unwrapVectorArray_any_loop v inds []). Qed.

Lemma numbers_Some (l : list R) : viewer.numbers (map Some l) = Some l.
Proof. unfold viewer.numbers. now apply mapM_fmap_Some. Qed.

Lemma mesh_arrays_out_of_range (verts : list Vec3) (tris : list Tri)
      (norms : list (option viewer.NumTriple)) :
  Exists (out_of_range (length norms)) tris ->
  viewer.mesh_arrays verts tris norms = Throw TypeError.
Proof.
  intros Hex. unfold viewer.mesh_arrays. cbv zeta.
  destruct (unwrapVectorArray (centerPointCloud verts) tris) as [vu|[]];
    [|reflexivity].
  cbn. now rewrite unwrapVectorArray_any_out_of_range.
Qed.

Lemma mesh_arrays_vectors (verts norms : list Vec3) (tris : list Tri) :
  all_in_range (length verts) tris ->
  all_in_range (length norms) tris ->
  well_formed (length tris)
    (viewer.mesh_arrays verts tris (map (fun n => Some (viewer.triple n)) norms)).
Proof.
  intros Hr Hrn.
  assert (Hrc : all_in_range (length (centerPointCloud verts)) tris).
  { rewrite centerPointCloud_translate, translate_length. exact Hr. }
  exists (flat_map coords (unwrapped origin (centerPointCloud verts) tris)),
         (flat_map coords (unwrapped origin norms tris)),
         (variation_scalars (map (corners (centerPointCloud verts)) tris)
                            (map (corners norms) tris)),
         (map orientation_scalar (unwrapped origin norms tris)).
  split.
  - unfold viewer.mesh_arrays. cbv zeta.
    rewrite (unwrapVectorArray_in_range _ _ Hrc). cbn.
    rewrite unwrapVectorArray_any_vectors, (unwrapVectorArray_in_range _ _ Hrn).
    cbn. rewrite numbers_Some. cbn.
    rewrite surfaceOrientation_normals.
    rewrite !unwrapped_corners, surfaceVariation_triangles
      by now rewrite !length_map.
    reflexivity.
  - assert (Hu : forall v : list Vec3,
               length (unwrapped origin v tris) = (3 * length tris)%nat).
    { intros v. unfold unwrapped.
      now rewrite (length_flat_map_chunks _ 3) by reflexivity. }
    rewrite !(length_flat_map_chunks coords 3) by reflexivity.
    rewrite !Hu, length_map, Hu.
    rewrite length_variation_scalars by now rewrite !length_map.
    rewrite length_map. repeat split; lia.
Qed.

Lemma computed_normals_vectors (verts : list Vec3) (tris : list Tri) :
  all_in_range (length verts) tris ->
  exists norms : list Vec3,
    vertexNormals verts tris = Ok (map Some norms)
    /\ length norms = length verts.
Proof.
  intros Hr.
  destruct (vertexNormals_in_range verts tris Hr) as (on & Hrun & Hlen & Hslots).
  destruct (dense_array on) as [norms ->].
  { intros i Hi. rewrite Hlen in Hi. destruct (Hslots i Hi) as (x & Hx & _).
    now exists x. }
  rewrite length_map in Hlen. now exists norms.
Qed.

(** X8.  The callback of [viewData] on a mesh whose indices are in range of
    its points.  When the file stores no normals, [vertexNormals] fills
    every slot of its array, nothing throws, no entry of the unwrapped
    normals is undefined, and the four arrays handed to the renderer have
    nine coordinates per triangle in the unwrapped points and normals,
    three scalars per triangle in the curvature and the orientation; the
    PLY callback is then the OBJ one.  When an OBJ file stores normals, the
    same holds if every index is also in range of the stored normals, and
    the callback throws a TypeError if some index is not. *)
Theorem viewData_arrays_well_formed :
  forall (v : list Vec3) (f : list Tri),
    all_in_range (length v) f ->
    well_formed (length f) (viewer.obj_arrays v f None)
    /\ (forall ny nz, viewer.ply_arrays v f None ny nz = viewer.obj_arrays v f None)
    /\ (forall vn : list Vec3,
          (all_in_range (length vn) f ->
           well_formed (length f) (viewer.obj_arrays v f (Some vn)))
          /\ (Exists (out_of_range (length vn)) f ->
              viewer.obj_arrays v f (Some vn) = Throw TypeError)).
Proof.
  intros v f Hr. split; [|split; [reflexivity|]].
  - destruct (computed_normals_vectors v f Hr) as (norms & Hrun & Hlen).
    unfold viewer.obj_arrays. cbv zeta. rewrite Hrun. cbn.
    rewrite map_map. cbn. apply mesh_arrays_vectors; [exact Hr|].
    now rewrite Hlen.
  - intros vn. split.
    + intros Hrn. unfold viewer.obj_arrays. cbv zeta. cbn.
      now apply mesh_arrays_vectors.
    + intros Hex. unfold viewer.obj_arrays. cbv zeta. cbn.
      apply mesh_arrays_out_of_range. now rewrite length_map.
Qed.

Lemma viewData_arrays_well_formed_witness :
  well_formed (length [mkTri 0 1 2])
    (viewer.obj_arrays [mkVec3 0 0 0; mkVec3 1 0 0; mkVec3 0 1 0; mkVec3 5 5 5]
                       [mkTri 0 1 2] None).
Proof.
  destruct (viewData_arrays_well_formed
              [mkVec3 0 0 0; mkVec3 1 0 0; mkVec3 0 1 0; mkVec3 5 5 5]
              [mkTri 0 1 2]) as [Hrun _].
  - repeat constructor.
  - exact Hrun.
Defined.

(** X22.  The normals stored in a PLY file are loaded one per face, not
    one per vertex: whatever the numbers of vertices and of faces, the
    array built from them has as many entries as the file has faces, entry
    [i] holding what the three stored arrays yield at [i] ([undefined]
    past their end).  When a face uses an index that is not below the
    number of faces, unwrapping the normals reads past the end of that
    array and the callback throws a TypeError; when the indices are in
    range of the points and below the number of faces, the callback runs
    through. *)
Theorem stored_normals_one_per_face :
  forall (nx ny nz : list R) (vertex_indices : list Tri),
    exists norms,
      viewer.stored_normals nx (Some ny) (Some nz) vertex_indices = Ok norms
      /\ length norms = length vertex_indices
      /\ (forall i, (i < length vertex_indices)%nat ->
            norms !! i = Some (nx !! i, ny !! i, nz !! i))
      /\ (forall verts,
            Exists (out_of_range (length vertex_indices)) vertex_indices ->
            viewer.ply_arrays verts vertex_indices (Some nx) (Some ny) (Some nz)
            = Throw TypeError)
      /\ (forall verts,
            all_in_range (length verts) vertex_indices ->
            all_in_range (length vertex_indices) vertex_indices ->
            exists verts_unwrapped norms_unwrapped curvature orientation,
              viewer.ply_arrays verts vertex_indices (Some nx) (Some ny) (Some nz)
              = Ok (verts_unwrapped, norms_unwrapped, curvature, orientation)
              /\ length norms_unwrapped = (9 * length vertex_indices)%nat).
Proof.
  intros nx ny nz vertex_indices.
  exists (map (fun i => (nx !! i, ny !! i, nz !! i))
              (seq 0 (length vertex_indices))).
  assert (Hrun : viewer.stored_normals nx (Some ny) (Some nz) vertex_indices
                 = Ok (map (fun i => (nx !! i, ny !! i, nz !! i))
                           (seq 0 (length vertex_indices)))).
  { unfold viewer.stored_normals. cbv zeta. now rewrite stored_normals_loop. }
  assert (Hlen : length (map (fun i => (nx !! i, ny !! i, nz !! i))
                             (seq 0 (length vertex_indices)))
                 = length vertex_indices)
    by now rewrite length_map, length_seq.
  split; [exact Hrun|]. split; [exact Hlen|]. split; [|split].
  - intros i Hi. rewrite list_lookup_fmap, lookup_seq_lt by exact Hi.
    reflexivity.
  - intros verts Hex. unfold viewer.ply_arrays. cbv zeta. rewrite Hrun. cbn.
    apply mesh_arrays_out_of_range. now rewrite length_map, Hlen.
  - intros verts Hr Hrf.
    destruct (unwrapVectorArray_any_in_range
                (map (fun i => (nx !! i, ny !! i, nz !! i))
                     (seq 0 (length vertex_indices)))
                vertex_indices)
      as (out & Hout & Hlout); [now rewrite Hlen|].
    unfold viewer.ply_arrays. cbv zeta. rewrite Hrun, !bind_Ok.
    unfold viewer.mesh_arrays. cbv zeta.
    rewrite unwrapVectorArray_in_range
      by now rewrite centerPointCloud_translate, translate_length.
    rewrite bind_Ok, Hout, bind_Ok. do 4 eexists. split; [reflexivity|].
    exact Hlout.
Qed.

(** One triangle on three vertices with stored normals: the normals array
    has one entry, and the callback throws. *)
Example stored_normals_single_triangle :
  viewer.stored_normals [0; 0; 0] (Some [0; 0; 0]) (Some [1; 1; 1]) [mkTri 0 1 2]
  = Ok [(Some 0, Some 0, Some 1)]
  /\ viewer.ply_arrays [mkVec3 0 0 0; mkVec3 1 0 0; mkVec3 0 1 0] [mkTri 0 1 2]
                       (Some [0; 0; 0]) (Some [0; 0; 0]) (Some [1; 1; 1])
     = Throw TypeError.
Proof.
  split; [reflexivity|].
  apply mesh_arrays_out_of_range.
  apply Exists_cons_hd. unfold out_of_range. cbn. lia.
Qed.
